(** * GeoGenie backend: the visual similarity index and the recognition pipeline

    A shallow embedding of [scripts/search_image.py] (class [ImageSearch]) and
    of the coordinate resolution of [recognize_landmark] in [main.py] and
    [backend/main.py].

    Numbers.  Python and NumPy floats are modelled as exact rationals [Q]:
    [astype('float32')] is the identity, arithmetic does not round, and there
    is no NaN or infinity.  Equality of computed numbers is therefore stated
    with [==] ([Qeq]).

    The FAISS index.  [faiss.IndexFlatL2] is a third-party class; module
    [Faiss] models the part of it the engine calls: an exact, brute-force index
    over squared Euclidean distance. *)

From Stdlib Require Import String Ascii Strings.Byte Bool Arith Lia List.
From Stdlib Require Import QArith Qminmax Lqa.
From Stdlib Require Import Sorted Permutation.
Import ListNotations.

Local Open Scope nat_scope.

(** ** Python exceptions and results *)

Inductive exn : Type :=
| ValueError (msg : string)
| AssertionError
| HTTPException (status_code : nat).

Inductive result (A : Type) : Type :=
| Ok (a : A)
| Raise (e : exn).

Arguments Ok {A} a.
Arguments Raise {A} e.

(** ** [faiss.IndexFlatL2] *)

Module Faiss.

(** An index of dimension [d] holding the vectors [xb] in insertion order. *)
Record IndexFlatL2 : Type := mkIndex {
  d : nat;
  xb : list (list Q)
}.

(** [faiss.IndexFlatL2(d)]: a new, empty index. *)
Definition new (dim : nat) : IndexFlatL2 := {| d := dim; xb := [] |}.

Definition ntotal (ix : IndexFlatL2) : nat := length (xb ix).

(** [index.add(x)] for one row [x]; the wrapper asserts [x.shape[1] == d]. *)
Definition add (ix : IndexFlatL2) (x : list Q) : result IndexFlatL2 :=
  if length x =? d ix
  then Ok {| d := d ix; xb := xb ix ++ [x] |}
  else Raise AssertionError.

(** Squared Euclidean distance, the metric of [IndexFlatL2]. *)
Fixpoint fvec_L2sqr (x y : list Q) : Q :=
  match x, y with
  | a :: x', b :: y' => ((a - b) * (a - b) + fvec_L2sqr x' y')%Q
  | _, _ => 0%Q
  end.

(** Insertion of one (distance, label) pair into a list sorted by distance;
    the pair goes before the first element that is not strictly closer, so
    that equal distances keep the order of the labels. *)
Fixpoint insert (p : Q * nat) (l : list (Q * nat)) : list (Q * nat) :=
  match l with
  | [] => [p]
  | q :: l' => if Qle_bool (fst p) (fst q) then p :: q :: l' else q :: insert p l'
  end.

Fixpoint sort (l : list (Q * nat)) : list (Q * nat) :=
  match l with
  | [] => []
  | p :: l' => insert p (sort l')
  end.

(** The order of the results: ascending distance. *)
Definition by_distance (p q : Q * nat) : Prop := (fst p <= fst q)%Q.

(** The distance of the query to every stored vector, with its label. *)
Definition all_distances (ix : IndexFlatL2) (x : list Q) : list (Q * nat) :=
  combine (map (fvec_L2sqr x) (xb ix)) (seq 0 (ntotal ix)).

(** [index.search(x, k)] for one query row: the wrapper asserts
    [x.shape[1] == d] and [k > 0]; the result is the [k] nearest stored
    vectors by ascending distance.  The engine only calls it with
    [k <= ntotal], so the padding FAISS adds beyond [ntotal] is left out. *)
Definition search (ix : IndexFlatL2) (x : list Q) (k : nat)
  : result (list (Q * nat)) :=
  if negb (length x =? d ix) then Raise AssertionError
  else if k =? 0 then Raise AssertionError
  else Ok (firstn k (sort (all_distances ix x))).

End Faiss.

(** ** The engine's records *)

(** One entry of [self.metadata], the dict built by [add_landmark]. *)
Module Metadata.
Record t : Type := mk {
  place_name : string;
  image_path : option string;
  index : nat
}.
End Metadata.

(** One entry of the list returned by [search]. *)
Module Match.
Record t : Type := mk {
  place_name : string;
  confidence : Q;
  distance : Q;
  metadata : Metadata.t
}.
End Match.

(** The two persisted artifacts ([db_path], [metadata_path]) and the log of
    the writes made to them, most recent first. *)
Inductive write_event : Type :=
| WriteIndex (ix : Faiss.IndexFlatL2)
| PickleDump (mds : list Metadata.t).

Record Disk : Type := mkDisk {
  db_file : option Faiss.IndexFlatL2;
  metadata_file : option (list Metadata.t);
  writes : list write_event
}.

(** The fields of an [ImageSearch] object that change. *)
Record ImageSearch : Type := mkImageSearch {
  index : Faiss.IndexFlatL2;
  metadata : list Metadata.t
}.

(** [self.dimension]: the CLIP ViT-B/32 embedding dimension. *)
Definition dimension : nat := 512.

Arguments dimension : simpl never.

(** ** A state and exception monad over the engine and the disk *)

Record World : Type := mkWorld {
  self : ImageSearch;
  disk : Disk
}.

Definition M (A : Type) : Type := World -> result A * World.

Definition ret {A} (a : A) : M A := fun w => (Ok a, w).

Definition raise {A} (e : exn) : M A := fun w => (Raise e, w).

Definition bind {A B} (m : M A) (f : A -> M B) : M B :=
  fun w =>
    match m w with
    | (Ok a, w') => f a w'
    | (Raise e, w') => (Raise e, w')
    end.

Notation "x <- m ;; k" := (bind m (fun x => k))
  (at level 61, m at next level, right associativity).
Notation "m ;;; k" := (bind m (fun _ => k))
  (at level 61, right associativity).

Definition get_self : M ImageSearch := fun w => (Ok (self w), w).

Definition put_self (s : ImageSearch) : M unit :=
  fun w => (Ok tt, {| self := s; disk := disk w |}).

Definition get_disk : M Disk := fun w => (Ok (disk w), w).

Definition put_disk (fs : Disk) : M unit :=
  fun w => (Ok tt, {| self := self w; disk := fs |}).

(** A call into the FAISS model that may raise. *)
Definition lift {A} (r : result A) : M A := fun w => (r, w).

(** ** [ImageSearch] *)

(** [_load_database], called once by [__init__]: both artifacts present
    gives the persisted pair, otherwise a new empty index.  (Unreadable
    files, which the method answers with a new empty index too, are not
    modelled.) *)
Definition _load_database (fs : Disk) : ImageSearch :=
  match db_file fs, metadata_file fs with
  | Some ix, Some mds => {| index := ix; metadata := mds |}
  | _, _ => {| index := Faiss.new dimension; metadata := [] |}
  end.

(** [_save_database]: the index is written first, then the metadata. *)
Definition _save_database : M unit :=
  s <- get_self ;;
  fs <- get_disk ;;
  put_disk {| db_file := Some (index s);
              metadata_file := metadata_file fs;
              writes := WriteIndex (index s) :: writes fs |} ;;;
  fs <- get_disk ;;
  put_disk {| db_file := db_file fs;
              metadata_file := Some (metadata s);
              writes := PickleDump (metadata s) :: writes fs |}.

(** The loop [for md in self.metadata: if md.get("place_name") == place_name]. *)
Fixpoint has_place_name (mds : list Metadata.t) (place_name : string) : bool :=
  match mds with
  | [] => false
  | md :: mds' =>
      if String.eqb (Metadata.place_name md) place_name then true
      else has_place_name mds' place_name
  end.

(** [add_landmark]; the message of the [ValueError] is cut to its fixed
    prefix. *)
Definition add_landmark (embedding : list Q) (place_name : string)
    (image_path : option string) : M unit :=
  s <- get_self ;;
  if negb (length embedding =? dimension)
  then raise (ValueError "Embedding dimension mismatch")
  else if has_place_name (metadata s) place_name
  then ret tt
  else
    ix <- lift (Faiss.add (index s) embedding) ;;
    put_self {| index := ix;
                metadata := metadata s ++
                  [ {| Metadata.place_name := place_name;
                       Metadata.image_path := image_path;
                       Metadata.index := Faiss.ntotal ix - 1 |} ] |} ;;;
    _save_database.

(** The body of the loop of [search] for one (distance, idx) pair. *)
Definition search_row (mds : list Metadata.t) (p : Q * nat) : list Match.t :=
  let (distance, idx) := p in
  if idx <? length mds then
    match nth_error mds idx with
    | Some md =>
        let similarity := Qmax 0 (1 - distance / 2) in
        [ {| Match.place_name := Metadata.place_name md;
             Match.confidence := similarity;
             Match.distance := distance;
             Match.metadata := md |} ]
    | None => []
    end
  else [].

(** [search]; [k], the number of results asked for, is a natural number. *)
Definition search (query_embedding : list Q) (k : nat) : M (list Match.t) :=
  s <- get_self ;;
  if Faiss.ntotal (index s) =? 0 then ret []
  else
    DI <- lift (Faiss.search (index s) query_embedding
                  (Nat.min k (Faiss.ntotal (index s)))) ;;
    ret (flat_map (search_row (metadata s)) DI).

Definition get_best_match (query_embedding : list Q) (threshold : Q)
  : M (option Match.t) :=
  results <- search query_embedding 1 ;;
  match results with
  | r :: _ =>
      if Qle_bool threshold (Match.confidence r) then ret (Some r)
      else ret None
  | [] => ret None
  end.

(** ** [recognize_landmark] *)

(** The response model of [/recognize]. *)
Record RecognitionResponse : Type := mkResponse {
  place_name : string;
  confidence : Q;
  source : string;
  coordinates : option (list Q)
}.

(** The calls [recognize_landmark] makes to its collaborators. *)
Inductive call : Type :=
| CallExtractGps (img_bytes : list byte)
| CallReverseGeocode (lat lon : Q)
| CallGenerateEmbedding
| CallGetBestMatch (emb : list Q) (threshold : Q).

(** Truth value of a Python float: every float but zero is true ([None],
    the other value of an [Optional[float]] form field, is false). *)
Definition float_truthy (x : Q) : bool := negb (Qeq_bool x 0).

(** Truth value of a Python string: every string but the empty one. *)
Definition str_truthy (s : string) : bool := negb (String.eqb s "").

Section Pipeline.

(** A decoded [PIL.Image] and the collaborators: [Image.open],
    [exif_utils.extract_gps_from_bytes], [Geocoder.reverse_geocode] (the
    ["place_name"] of the dict it returns, or [None]) and
    [ClipEmbedder.generate_embedding]. *)
Variable Image : Type.
Variable Image_open : list byte -> result Image.
Variable extract_gps_from_bytes : list byte -> option (Q * Q).
Variable reverse_geocode : Q -> Q -> option string.
Variable generate_embedding : Image -> result (list Q).

(** The expression
    [(latitude, longitude) if latitude and longitude
     else extract_gps_from_bytes(img_bytes)],
    with the collaborator calls it makes. *)
Definition resolve_gps (latitude longitude : option Q) (img_bytes : list byte)
  : option (Q * Q) * list call :=
  match latitude, longitude with
  | Some la, Some lo =>
      if float_truthy la && float_truthy lo
      then (Some (la, lo), [])
      else (extract_gps_from_bytes img_bytes, [CallExtractGps img_bytes])
  | _, _ => (extract_gps_from_bytes img_bytes, [CallExtractGps img_bytes])
  end.

(** [list(gps) if gps else None]; a tuple of two floats is always true. *)
Definition coords_of (gps : option (Q * Q)) : option (list Q) :=
  match gps with
  | Some (la, lo) => Some [la; lo]
  | None => None
  end.

(** The visual branch: CLIP embedding, then the FAISS best match at
    threshold 0.6. *)
Definition visual_search (img_pil : Image) (gps : option (Q * Q)) (w : World)
  : result RecognitionResponse * World * list call :=
  match generate_embedding img_pil with
  | Raise _ => (Raise (HTTPException 500), w, [CallGenerateEmbedding])
  | Ok emb =>
      let tr := [CallGenerateEmbedding; CallGetBestMatch emb (6 # 10)] in
      match get_best_match emb (6 # 10) w with
      | (Raise _, w') => (Raise (HTTPException 500), w', tr)
      | (Ok (Some best), w') =>
          (Ok {| place_name := Match.place_name best;
                 confidence := Match.confidence best;
                 source := "visual";
                 coordinates := coords_of gps |}, w', tr)
      | (Ok None, w') =>
          (Ok {| place_name := "Unknown";
                 confidence := 0;
                 source := "visual";
                 coordinates := coords_of gps |}, w', tr)
      end
  end.

(** [recognize_landmark]: the response (or the HTTP 500 every exception is
    turned into), the world, and the collaborator calls in order. *)
Definition recognize_landmark (img_bytes : list byte)
    (latitude longitude : option Q) (w : World)
  : result RecognitionResponse * World * list call :=
  match Image_open img_bytes with
  | Raise _ => (Raise (HTTPException 500), w, [])
  | Ok img_pil =>
      let (gps, tr0) := resolve_gps latitude longitude img_bytes in
      match gps with
      | Some (la, lo) =>
          match reverse_geocode la lo with
          | Some name =>
              if str_truthy name
              then (Ok {| place_name := name;
                          confidence := 95 # 100;
                          source := "gps";
                          coordinates := coords_of gps |},
                    w, tr0 ++ [CallReverseGeocode la lo])
              else
                let '(r, w', tr) := visual_search img_pil gps w in
                (r, w', tr0 ++ CallReverseGeocode la lo :: tr)
          | None =>
              let '(r, w', tr) := visual_search img_pil gps w in
              (r, w', tr0 ++ CallReverseGeocode la lo :: tr)
          end
      | None =>
          let '(r, w', tr) := visual_search img_pil gps w in
          (r, w', tr0 ++ tr)
      end
  end.

End Pipeline.

(** * Specification vocabulary *)

(** The engine after [add_landmark] has appended [embedding] for a new
    place, and the disk after the [_save_database] that follows. *)
Definition appended (s : ImageSearch) (embedding : list Q) (p : string)
    (ip : option string) : ImageSearch :=
  {| index := {| Faiss.d := Faiss.d (index s);
                 Faiss.xb := Faiss.xb (index s) ++ [embedding] |};
     metadata := metadata s ++
       [ {| Metadata.place_name := p;
            Metadata.image_path := ip;
            Metadata.index := Faiss.ntotal (index s) |} ] |}.

Definition saved (s : ImageSearch) (fs : Disk) : Disk :=
  {| db_file := Some (index s);
     metadata_file := Some (metadata s);
     writes := PickleDump (metadata s) :: WriteIndex (index s) :: writes fs |}.

(** [search] reads the engine and leaves the world alone: its result as a
    function of the engine. *)
Definition search_of (s : ImageSearch) (query_embedding : list Q) (k : nat)
  : result (list Match.t) :=
  if Faiss.ntotal (index s) =? 0 then Ok []
  else
    match Faiss.search (index s) query_embedding
            (Nat.min k (Faiss.ntotal (index s))) with
    | Ok DI => Ok (flat_map (search_row (metadata s)) DI)
    | Raise e => Raise e
    end.

(** Orders on results: ascending distance, non-increasing confidence. *)
Definition closer (a b : Match.t) : Prop :=
  (Match.distance a <= Match.distance b)%Q.

Definition more_confident (a b : Match.t) : Prop :=
  (Match.confidence b <= Match.confidence a)%Q.

(** The spec's [clamp(x, lo, hi)]. *)
Definition clamp (x lo hi : Q) : Q := Qmax lo (Qmin x hi).

(** The catalog is aligned with the index (same length) and every entry's
    stored ordinal is its position (invariant I3). *)
Definition positional_identity (s : ImageSearch) : Prop :=
  length (metadata s) = Faiss.ntotal (index s) /\
  forall i md, nth_error (metadata s) i = Some md -> Metadata.index md = i.

(** A new engine on a machine with no persisted artifacts. *)
Definition empty_disk : Disk :=
  {| db_file := None; metadata_file := None; writes := [] |}.

Definition new_world : World :=
  {| self := _load_database empty_disk; disk := empty_disk |}.

(** The world after running [m], whatever its result. *)
Definition exec {A} (m : M A) (w : World) : World := snd (m w).

(** The [i]-th vector of the standard basis of dimension [dimension]: a
    valid, unit-norm embedding for [i < dimension]. *)
Definition basis (i : nat) : list Q :=
  repeat 0%Q i ++ [1%Q] ++ repeat 0%Q (dimension - 1 - i).

(** The squared L2 norm of a vector; a valid embedding has norm 1. *)
Definition sq_norm (v : list Q) : Q :=
  Faiss.fvec_L2sqr v (repeat 0%Q (length v)).

(** Two engines used as concrete inputs: one place stored, and two places
    stored with different vectors. *)
Definition world_one : World :=
  exec (add_landmark (basis 0) "Taj_Mahal" (Some "landmarks/Taj_Mahal/1.jpg"%string))
       new_world.

Definition world_two : World :=
  exec (add_landmark (basis 1) "Eiffel_Tower" None) world_one.

(** ** Further vocabulary *)

(** The disk holds what a restart would load: [_load_database] on it gives
    the engine in memory. *)
Definition persisted (w : World) : Prop := _load_database (disk w) = self w.


(** The ordinal stored in the catalog entry of a result. *)
Definition ordinal (r : Match.t) : nat := Metadata.index (Match.metadata r).

(** ** [scripts/evaluation.py] *)

(** [predict_label], from the embedding of the image on: the place name of
    the best FAISS match, with no threshold, or [None] when [search] returns
    nothing. *)
Definition predict_label (embedding : list Q) : M (option string) :=
  results <- search embedding 1 ;;
  match results with
  | [] => ret None
  | r :: _ => ret (Some (Match.place_name r))
  end.

(** ** [exif_utils.py] *)

(** The GPS block of an EXIF dictionary as [get_gps_data] returns it, with
    the four entries [get_lat_lon_from_exif] reads: a coordinate is a tuple
    of rationals (degrees, minutes, seconds), a reference a string.  An
    entry that is missing is [None]. *)
Record GpsData : Type := mkGpsData {
  GPSLatitude : option (list Q);
  GPSLatitudeRef : option string;
  GPSLongitude : option (list Q);
  GPSLongitudeRef : option string
}.

(** [convert_to_degrees]; [None] stands for the [IndexError] that
    [value[0]] or [value[1]] raises on a tuple of fewer than two numbers. *)
Definition convert_to_degrees (value : list Q) : option Q :=
  match value with
  | d :: m :: rest =>
      let s := match rest with s :: _ => s | [] => 0%Q end in
      Some (d + m / 60 + s / 3600)%Q
  | _ => None
  end.

(** Truth value of an entry of the GPS block: a missing entry, an empty
    tuple and an empty string are false. *)
Definition tuple_truthy (x : option (list Q)) : bool :=
  match x with
  | Some (_ :: _) => true
  | _ => false
  end.

Definition opt_str_truthy (x : option string) : bool :=
  match x with
  | Some s => str_truthy s
  | None => false
  end.

(** [get_lat_lon_from_exif], from the GPS block on ([None] when the image
    has no EXIF data or no [GPSInfo] tag).  The exception a malformed tuple
    raises is caught and answered with [None]. *)
Definition get_lat_lon_from_exif (gps_data : option GpsData) : option (Q * Q) :=
  match gps_data with
  | None => None
  | Some g =>
      if tuple_truthy (GPSLatitude g) && opt_str_truthy (GPSLatitudeRef g) &&
         tuple_truthy (GPSLongitude g) && opt_str_truthy (GPSLongitudeRef g)
      then
        match GPSLatitude g, GPSLatitudeRef g,
              GPSLongitude g, GPSLongitudeRef g with
        | Some lat, Some lat_ref, Some lon, Some lon_ref =>
            match convert_to_degrees lat with
            | None => None
            | Some latitude =>
                let latitude :=
                  if String.eqb lat_ref "S" then (- latitude)%Q else latitude in
                match convert_to_degrees lon with
                | None => None
                | Some longitude =>
                    let longitude :=
                      if String.eqb lon_ref "W" then (- longitude)%Q
                      else longitude in
                    Some (latitude, longitude)
                end
            end
        | _, _, _, _ => None
        end
      else None
  end.

(** A coordinate tuple as cameras write it: at least degrees and minutes,
    none of the components negative, and minutes and seconds (0 when
    absent) together less than one degree. *)
Definition dms_wellformed (value : list Q) : Prop :=
  match value with
  | d :: m :: rest =>
      let s := match rest with s :: _ => s | [] => 0%Q end in
      (0 <= d /\ 0 <= m /\ 0 <= s /\ m * 60 + s < 3600)%Q
  | _ => False
  end.

(** ** [utils.normalize_name] *)

(** Strings are modelled for ASCII text: on it the character classes below
    are those of Python's [str.split], [str.strip] and [str.capitalize]. *)
Definition ascii_only (s : string) : Prop :=
  Forall (fun c => nat_of_ascii c < 128) (list_ascii_of_string s).

(** Whitespace: tab to carriage return, the four separators 28 to 31, and
    the space. *)
Definition is_space (c : ascii) : bool :=
  let n := nat_of_ascii c in
  ((9 <=? n) && (n <=? 13)) || ((28 <=? n) && (n <=? 32)).

Definition is_lower (c : ascii) : bool :=
  let n := nat_of_ascii c in (97 <=? n) && (n <=? 122).

Definition is_upper (c : ascii) : bool :=
  let n := nat_of_ascii c in (65 <=? n) && (n <=? 90).

Definition upper (c : ascii) : ascii :=
  if is_lower c then ascii_of_nat (nat_of_ascii c - 32) else c.

Definition lower (c : ascii) : ascii :=
  if is_upper c then ascii_of_nat (nat_of_ascii c + 32) else c.

Fixpoint map_str (f : ascii -> ascii) (s : string) : string :=
  match s with
  | EmptyString => EmptyString
  | String c s' => String (f c) (map_str f s')
  end.

(** [str.capitalize]: the first character in upper case, the rest in lower
    case. *)
Definition capitalize (w : string) : string :=
  match w with
  | EmptyString => EmptyString
  | String c r => String (upper c) (map_str lower r)
  end.

(** [str.strip]: leading and trailing whitespace removed. *)
Fixpoint lstrip (s : string) : string :=
  match s with
  | EmptyString => EmptyString
  | String c s' => if is_space c then lstrip s' else s
  end.

Fixpoint rstrip (s : string) : string :=
  match s with
  | EmptyString => EmptyString
  | String c s' =>
      match rstrip s' with
      | EmptyString => if is_space c then EmptyString else String c EmptyString
      | r => String c r
      end
  end.

Definition strip (s : string) : string := rstrip (lstrip s).

(** [str.split()] with no argument: the maximal runs of characters that are
    not whitespace, in order. *)
Fixpoint split (s : string) : list string :=
  match s with
  | EmptyString => []
  | String c s' =>
      if is_space c then split s'
      else
        match s' with
        | EmptyString => [String c EmptyString]
        | String c' _ =>
            if is_space c' then String c EmptyString :: split s'
            else
              match split s' with
              | w :: ws => String c w :: ws
              | [] => [String c EmptyString]
              end
        end
  end.

(** [normalize_name]: ["Unknown"] for the empty name, otherwise the words
    of the name, each capitalized, joined by underscores. *)
Definition normalize_name (name : string) : string :=
  if String.eqb name "" then "Unknown"
  else String.concat "_" (map capitalize (split (strip name))).

(** No character of the string is whitespace. *)
Fixpoint no_space (s : string) : bool :=
  match s with
  | EmptyString => true
  | String c s' => negb (is_space c) && no_space s'
  end.

(** A word, as [split] returns them: not empty, without whitespace. *)
Definition word (w : string) : Prop := w <> EmptyString /\ no_space w = true.

(** Every character of the string is whitespace. *)
Fixpoint all_space (s : string) : bool :=
  match s with
  | EmptyString => true
  | String c s' => is_space c && all_space s'
  end.

(** * Properties *)

(** ** Running the monad *)

Ltac run :=
  cbv beta iota delta
    [bind ret raise lift get_self put_self get_disk put_disk].

Lemma bind_ok {A B} (m : M A) (f : A -> M B) w a w' :
  m w = (Ok a, w') -> bind m f w = f a w'.
Proof. intros H; unfold bind; now rewrite H. Qed.

Lemma bind_raise {A B} (m : M A) (f : A -> M B) w e w' :
  m w = (Raise e, w') -> bind m f w = (Raise e, w').
Proof. intros H; unfold bind; now rewrite H. Qed.

(** ** The dedup scan *)

Lemma has_place_name_In mds p :
  has_place_name mds p = true <->
  exists md, In md mds /\ Metadata.place_name md = p.
Proof.
  induction mds as [|md mds IH]; simpl.
  - split; [discriminate | intros (? & [] & _)].
  - destruct (String.eqb_spec (Metadata.place_name md) p) as [E|N].
    + split; [intros _; exists md; auto | reflexivity].
    + rewrite IH; split.
      * intros (m & Hin & Hm); exists m; auto.
      * intros (m & [->|Hin] & Hm); [contradiction | exists m; auto].
Qed.

Lemma has_place_name_app mds mds' p :
  has_place_name (mds ++ mds') p =
  has_place_name mds p || has_place_name mds' p.
Proof.
  induction mds as [|md mds IH]; simpl; [reflexivity|].
  now destruct (String.eqb (Metadata.place_name md) p).
Qed.

(** ** The four outcomes of [add_landmark] *)

Lemma save_database_run w :
  _save_database w = (Ok tt, {| self := self w; disk := saved (self w) (disk w) |}).
Proof. reflexivity. Qed.

Lemma add_landmark_bad_dimension v p ip w :
  length v <> dimension ->
  add_landmark v p ip w = (Raise (ValueError "Embedding dimension mismatch"), w).
Proof.
  intros H. unfold add_landmark. run.
  apply Nat.eqb_neq in H. now rewrite H.
Qed.

Lemma add_landmark_duplicate v p ip w :
  length v = dimension ->
  has_place_name (metadata (self w)) p = true ->
  add_landmark v p ip w = (Ok tt, w).
Proof.
  intros H D. unfold add_landmark. run.
  apply Nat.eqb_eq in H. now rewrite H, D.
Qed.

Lemma add_landmark_index_mismatch v p ip w :
  length v = dimension ->
  has_place_name (metadata (self w)) p = false ->
  Faiss.d (index (self w)) <> dimension ->
  add_landmark v p ip w = (Raise AssertionError, w).
Proof.
  intros H D N. unfold add_landmark, Faiss.add. run.
  rewrite H, Nat.eqb_refl, D. cbn.
  assert (E : (dimension =? Faiss.d (index (self w))) = false)
    by (apply Nat.eqb_neq; congruence).
  now rewrite E.
Qed.

Lemma add_landmark_fresh v p ip w :
  length v = dimension ->
  has_place_name (metadata (self w)) p = false ->
  Faiss.d (index (self w)) = dimension ->
  add_landmark v p ip w =
  (Ok tt, {| self := appended (self w) v p ip;
             disk := saved (appended (self w) v p ip) (disk w) |}).
Proof.
  intros H D E. unfold add_landmark, Faiss.add. run.
  assert (B : (dimension =? Faiss.d (index (self w))) = true)
    by (apply Nat.eqb_eq; congruence).
  rewrite H, Nat.eqb_refl, D, B. cbn.
  unfold appended, saved, Faiss.ntotal. cbn.
  rewrite length_app. cbn.
  replace (length (Faiss.xb (index (self w))) + 1 - 1)
    with (length (Faiss.xb (index (self w)))) by lia.
  reflexivity.
Qed.

Lemma add_landmark_cases v p ip w :
  add_landmark v p ip w = (Raise (ValueError "Embedding dimension mismatch"), w) \/
  add_landmark v p ip w = (Ok tt, w) \/
  add_landmark v p ip w = (Raise AssertionError, w) \/
  (has_place_name (metadata (self w)) p = false /\
   add_landmark v p ip w =
   (Ok tt, {| self := appended (self w) v p ip;
              disk := saved (appended (self w) v p ip) (disk w) |})).
Proof.
  destruct (Nat.eq_dec (length v) dimension) as [L|L].
  - destruct (has_place_name (metadata (self w)) p) eqn:D.
    + right; left. now apply add_landmark_duplicate.
    + destruct (Nat.eq_dec (Faiss.d (index (self w))) dimension) as [E|E].
      * right; right; right. split; [reflexivity|].
        now apply add_landmark_fresh.
      * right; right; left. now apply add_landmark_index_mismatch.
  - left. now apply add_landmark_bad_dimension.
Qed.

(** ** The FAISS model: distances and ordering *)

Module FaissFacts.
Import Faiss.

Local Open Scope Q_scope.

Lemma fvec_L2sqr_nonneg x y : 0 <= fvec_L2sqr x y.
Proof.
  revert y; induction x as [|a x IH]; intros [|b y]; simpl; try apply Qle_refl.
  specialize (IH y).
  assert (S : 0 <= (a - b) * (a - b)).
  { destruct (Qlt_le_dec (a - b) 0) as [N|P].
    - setoid_replace ((a - b) * (a - b)) with ((- (a - b)) * (- (a - b)))
        by ring.
      apply Qmult_le_0_compat; lra.
    - now apply Qmult_le_0_compat. }
  lra.
Qed.

Lemma fvec_L2sqr_self x : fvec_L2sqr x x == 0.
Proof.
  induction x as [|a x IH]; simpl; [reflexivity|].
  rewrite IH. ring.
Qed.

Lemma insert_perm p l : Permutation (insert p l) (p :: l).
Proof.
  induction l as [|q l IH]; simpl; [reflexivity|].
  destruct (Qle_bool (fst p) (fst q)); [reflexivity|].
  rewrite IH. apply perm_swap.
Qed.

Lemma sort_perm l : Permutation (sort l) l.
Proof.
  induction l as [|p l IH]; simpl; [reflexivity|].
  rewrite insert_perm. now constructor.
Qed.

Lemma sort_length l : length (sort l) = length l.
Proof. apply Permutation_length, sort_perm. Qed.

Lemma insert_sorted p l :
  StronglySorted by_distance l -> StronglySorted by_distance (insert p l).
Proof.
  induction 1 as [|q l Hl IH Hq]; simpl.
  - repeat constructor.
  - destruct (Qle_bool (fst p) (fst q)) eqn:C.
    + apply Qle_bool_iff in C.
      constructor; [now constructor|].
      constructor; [exact C|].
      eapply Forall_impl; [|exact Hq].
      intros r Hr. unfold by_distance in *. lra.
    + assert (Hqp : fst q <= fst p).
      { destruct (Qlt_le_dec (fst q) (fst p)) as [Hlt|Hle].
        - now apply Qlt_le_weak.
        - apply Qle_bool_iff in Hle. congruence. }
      constructor; [exact IH|].
      eapply Permutation_Forall; [symmetry; apply insert_perm|].
      constructor; assumption.
Qed.

Lemma sort_sorted l : StronglySorted by_distance (sort l).
Proof.
  induction l as [|p l IH]; simpl; [constructor | now apply insert_sorted].
Qed.

Lemma firstn_In {A} k (l : list A) x : In x (firstn k l) -> In x l.
Proof.
  intros H. rewrite <- (firstn_skipn k l). apply in_or_app. now left.
Qed.

Lemma firstn_sorted k l :
  StronglySorted by_distance l -> StronglySorted by_distance (firstn k l).
Proof.
  intros H; revert k; induction H as [|p l Hl IH Hp]; intros [|k]; simpl;
    try constructor.
  - apply IH.
  - apply Forall_forall. intros q Hq.
    rewrite Forall_forall in Hp. apply Hp.
    now apply (firstn_In k).
Qed.

(** What the pairs of [all_distances] are: label [i] carries the distance of
    the query to the [i]-th stored vector. *)
Lemma combine_seq_In (f : list Q -> Q) l s dq i :
  In (dq, i) (combine (map f l) (seq s (length l))) <->
  exists v, (s <= i)%nat /\ nth_error l (i - s) = Some v /\ dq = f v.
Proof.
  revert s; induction l as [|a l IH]; intros s; simpl.
  - split; [intros [] | intros (v & _ & H & _)].
    now destruct (i - s)%nat.
  - rewrite IH. split.
    + intros [E | (v & Hs & Hn & Hd)].
      * injection E as <- <-. exists a. rewrite Nat.sub_diag. auto.
      * exists v. split; [lia|]. split; [|exact Hd].
        replace (i - s)%nat with (S (i - S s)) by lia. exact Hn.
    + intros (v & Hs & Hn & Hd).
      destruct (Nat.eq_dec s i) as [<-|N].
      * left. rewrite Nat.sub_diag in Hn. simpl in Hn.
        injection Hn as ->. now subst.
      * right. exists v. split; [lia|]. split; [|exact Hd].
        replace (i - s)%nat with (S (i - S s)) in Hn by lia. exact Hn.
Qed.

Lemma all_distances_In ix x dq i :
  In (dq, i) (all_distances ix x) <->
  exists v, nth_error (xb ix) i = Some v /\ dq = fvec_L2sqr x v.
Proof.
  unfold all_distances, ntotal. rewrite combine_seq_In.
  rewrite Nat.sub_0_r. split.
  - intros (v & _ & H); now exists v.
  - intros (v & H); exists v; split; [lia | exact H].
Qed.

Lemma all_distances_length ix x : length (all_distances ix x) = ntotal ix.
Proof.
  unfold all_distances, ntotal.
  rewrite length_combine, length_map, length_seq. apply Nat.min_id.
Qed.

(** The first pair of a sorted list is a nearest one. *)
Lemma sort_head_min l p rest q :
  sort l = p :: rest -> In q l -> fst p <= fst q.
Proof.
  intros E Hq.
  pose proof (sort_sorted l) as S. rewrite E in S.
  apply (Permutation_in _ (Permutation_sym (sort_perm l))) in Hq.
  rewrite E in Hq. inversion S as [|? ? _ HF]; subst.
  destruct Hq as [<-|Hq]; [apply Qle_refl|].
  rewrite Forall_forall in HF. now apply HF.
Qed.

End FaissFacts.

(** ** [search]: frame, shape of the rows, ordering *)

Lemma search_run q k w : search q k w = (search_of (self w) q k, w).
Proof.
  unfold search, search_of. run.
  destruct (Faiss.ntotal (index (self w)) =? 0); [reflexivity|].
  now destruct (Faiss.search _ _ _).
Qed.

Lemma search_row_In mds dq i r :
  In r (search_row mds (dq, i)) <->
  exists md, nth_error mds i = Some md /\
    r = {| Match.place_name := Metadata.place_name md;
           Match.confidence := Qmax 0 (1 - dq / 2);
           Match.distance := dq;
           Match.metadata := md |}.
Proof.
  unfold search_row.
  destruct (Nat.ltb_spec i (length mds)) as [L|L].
  - destruct (nth_error mds i) as [md|] eqn:E.
    + split.
      * intros [<-|[]]. now exists md.
      * intros (md' & [= <-] & ->). now left.
    + apply nth_error_None in E. lia.
  - apply nth_error_None in L. rewrite L.
    split; [intros [] | intros (? & ? & _); discriminate].
Qed.

Lemma search_row_cases mds p :
  search_row mds p = [] \/
  exists r, search_row mds p = [r] /\ Match.distance r = fst p.
Proof.
  destruct p as [dq i]. unfold search_row.
  destruct (i <? length mds); [|now left].
  destruct (nth_error mds i); [|now left].
  right. eexists; split; reflexivity.
Qed.

Lemma rows_length mds DI :
  length (flat_map (search_row mds) DI) <= length DI.
Proof.
  induction DI as [|p DI IH]; simpl; [lia|].
  rewrite length_app.
  destruct (search_row_cases mds p) as [->|(r & -> & _)]; simpl; lia.
Qed.

Lemma rows_In mds DI r :
  In r (flat_map (search_row mds) DI) <->
  exists dq i md, In (dq, i) DI /\ nth_error mds i = Some md /\
    r = {| Match.place_name := Metadata.place_name md;
           Match.confidence := Qmax 0 (1 - dq / 2);
           Match.distance := dq;
           Match.metadata := md |}.
Proof.
  rewrite in_flat_map. split.
  - intros ([dq i] & Hin & Hr). apply search_row_In in Hr.
    destruct Hr as (md & Hn & ->). now exists dq, i, md.
  - intros (dq & i & md & Hin & Hn & ->). exists (dq, i). split; [exact Hin|].
    apply search_row_In. now exists md.
Qed.

Lemma rows_sorted mds DI :
  StronglySorted Faiss.by_distance DI ->
  StronglySorted closer (flat_map (search_row mds) DI).
Proof.
  induction 1 as [|p DI HS IH HF]; simpl; [constructor|].
  destruct (search_row_cases mds p) as [->|(r & -> & Hr)]; simpl; [exact IH|].
  constructor; [exact IH|].
  apply Forall_forall. intros r' Hr'.
  apply rows_In in Hr'. destruct Hr' as (dq & i & md & Hin & _ & ->).
  rewrite Forall_forall in HF. specialize (HF _ Hin).
  unfold closer, Faiss.by_distance in *. simpl in *. now rewrite Hr.
Qed.

Lemma half (x : Q) : (x / 2 == x * (1 # 2))%Q.
Proof. field. Qed.

Lemma confidence_antitone (d1 d2 : Q) :
  (d1 <= d2 -> Qmax 0 (1 - d2 / 2) <= Qmax 0 (1 - d1 / 2))%Q.
Proof.
  intros H. apply Q.max_le_compat_l. rewrite !half. lra.
Qed.

Lemma rows_confidence_sorted mds DI :
  StronglySorted Faiss.by_distance DI ->
  StronglySorted more_confident (flat_map (search_row mds) DI).
Proof.
  intros H. apply rows_sorted with (mds := mds) in H.
  assert (C : Forall (fun r => Match.confidence r =
                         Qmax 0 (1 - Match.distance r / 2))
                (flat_map (search_row mds) DI)).
  { apply Forall_forall. intros r Hr. apply rows_In in Hr.
    now destruct Hr as (dq & i & md & _ & _ & ->). }
  induction H as [|r rs HS IH HF]; [constructor|].
  inversion C as [|? ? Cr Crs]; subst.
  constructor; [now apply IH|].
  rewrite Forall_forall in *. intros r' Hr'.
  unfold more_confident, closer in *.
  rewrite Cr, (Crs r' Hr'). apply confidence_antitone. now apply HF.
Qed.

Lemma search_frame q k w : exec (search q k) w = w.
Proof. unfold exec. now rewrite search_run. Qed.

Lemma search_empty q k w :
  Faiss.ntotal (index (self w)) = 0 -> search q k w = (Ok [], w).
Proof.
  intros H. rewrite search_run. unfold search_of. now rewrite H.
Qed.

Lemma get_best_match_run q t w :
  get_best_match q t w =
  (match search_of (self w) q 1 with
   | Ok (r :: _) =>
       if Qle_bool t (Match.confidence r) then Ok (Some r) else Ok None
   | Ok [] => Ok None
   | Raise e => Raise e
   end, w).
Proof.
  unfold get_best_match. unfold bind. rewrite search_run.
  destruct (search_of (self w) q 1) as [[|r rs]|e]; try reflexivity.
  now destruct (Qle_bool t (Match.confidence r)).
Qed.

(** ** Coordinate resolution *)

Lemma resolve_gps_explicit ex la lo b :
  float_truthy la = true -> float_truthy lo = true ->
  resolve_gps ex (Some la) (Some lo) b = (Some (la, lo), []).
Proof. intros Ha Ho. unfold resolve_gps. now rewrite Ha, Ho. Qed.

Lemma resolve_gps_missing ex la lo b :
  la = None \/ lo = None ->
  resolve_gps ex la lo b = (ex b, [CallExtractGps b]).
Proof. intros [->| ->]; unfold resolve_gps; [|destruct la]; reflexivity. Qed.

(** C1 (the code at the failing input).  A caller supplies the explicit pair
    latitude 0.0 (the equator), longitude 32.5, with an image whose EXIF block
    carries (48.8584, 2.2945): the condition [latitude and longitude] is false
    for the float 0.0, so the EXIF extraction is consulted and the resolved
    coordinates, and those of the response, are the EXIF pair instead of the
    caller's. *)
Theorem explicit_zero_latitude_consults_exif :
  let exif := fun _ : list byte => Some ((488584 # 10000)%Q, (22945 # 10000)%Q) in
  let geocode := fun _ _ : Q => Some "Eiffel Tower"%string in
  resolve_gps exif (Some 0%Q) (Some (325 # 10)%Q) [] =
    (Some ((488584 # 10000)%Q, (22945 # 10000)%Q), [CallExtractGps []]) /\
  recognize_landmark unit (fun _ => Ok tt) exif geocode (fun _ => Ok [])
      [] (Some 0%Q) (Some (325 # 10)%Q) new_world =
    (Ok {| place_name := "Eiffel Tower";
           confidence := 95 # 100;
           source := "gps";
           coordinates := Some [488584 # 10000; 22945 # 10000]%Q |},
     new_world,
     [CallExtractGps [];
      CallReverseGeocode (488584 # 10000) (22945 # 10000)]).
Proof. split; reflexivity. Qed.

(** ** Dimension check *)

(** C2 (counterexample).  On a new, empty engine, [search] with a vector of
    length 3 raises nothing: it returns the empty list. *)
Lemma search_wrong_dimension_empty_index_no_error :
  length [1; 2; 3]%Q <> dimension /\
  ~ (exists e, fst (search [1; 2; 3]%Q 5 new_world) = Raise e).
Proof.
  split; [discriminate|]. intros (e & H). discriminate H.
Qed.

(** C2 (amended).  For every vector whose length differs from D = 512:
    [add_landmark] raises the dimension-mismatch [ValueError] and leaves the
    index, the catalog and the disk as they were; [search] leaves them as
    they were too, returns the empty list when the index is empty, and raises
    the index's own assertion error when the index is non-empty and has
    dimension D. *)
Theorem dimension_mismatch_rejected w v p ip k :
  length v <> dimension ->
  add_landmark v p ip w =
    (Raise (ValueError "Embedding dimension mismatch"), w) /\
  exec (search v k) w = w /\
  (Faiss.ntotal (index (self w)) = 0 -> fst (search v k w) = Ok []) /\
  (Faiss.ntotal (index (self w)) <> 0 ->
   Faiss.d (index (self w)) = dimension ->
   fst (search v k w) = Raise AssertionError).
Proof.
  intros H. split; [now apply add_landmark_bad_dimension|].
  split; [apply search_frame|]. split.
  - intros E. now rewrite search_empty.
  - intros N D. rewrite search_run. unfold search_of, Faiss.search. cbn.
    apply Nat.eqb_neq in N. rewrite N, D.
    apply Nat.eqb_neq in H. now rewrite H.
Qed.

Lemma dimension_mismatch_rejected_witness :
  length [1; 2; 3]%Q <> dimension /\
  add_landmark [1; 2; 3]%Q "Qutub_Minar" None world_one =
    (Raise (ValueError "Embedding dimension mismatch"), world_one) /\
  search [1; 2; 3]%Q 5 world_one = (Raise AssertionError, world_one).
Proof.
  assert (H : length [1; 2; 3]%Q <> dimension) by discriminate.
  destruct (dimension_mismatch_rejected world_one [1; 2; 3]%Q
              "Qutub_Minar" None 5 H) as (A & F & _ & S).
  split; [exact H|]. split; [exact A|].
  rewrite (surjective_pairing (search [1; 2; 3]%Q 5 world_one)).
  unfold exec in F. rewrite F.
  rewrite S; [reflexivity | discriminate | reflexivity].
Defined.

(** ** Dedup: first write wins *)

(** C3.  Whatever the state of the engine, when the place name [p] is already
    in the catalog, [add_landmark v2 p r2] with an embedding [v2] (length D)
    returns normally, and the world after it is the world before it: the
    catalog and the index keep their sizes and their contents, so the vector
    stored for [p] is still the one of the first add. *)
Theorem add_existing_place_is_noop w v2 p r2 :
  length v2 = dimension ->
  has_place_name (metadata (self w)) p = true ->
  fst (add_landmark v2 p r2 w) = Ok tt /\
  length (metadata (self (exec (add_landmark v2 p r2) w))) =
    length (metadata (self w)) /\
  Faiss.ntotal (index (self (exec (add_landmark v2 p r2) w))) =
    Faiss.ntotal (index (self w)) /\
  Faiss.xb (index (self (exec (add_landmark v2 p r2) w))) =
    Faiss.xb (index (self w)) /\
  metadata (self (exec (add_landmark v2 p r2) w)) = metadata (self w).
Proof.
  intros L D. unfold exec.
  rewrite (add_landmark_duplicate v2 p r2 w L D). repeat split.
Qed.

Lemma add_existing_place_is_noop_witness :
  fst (add_landmark (basis 1) "Taj_Mahal" None world_one) = Ok tt /\
  Faiss.xb (index (self (exec (add_landmark (basis 1) "Taj_Mahal" None)
                           world_one))) = [basis 0].
Proof.
  destruct (add_existing_place_is_noop world_one (basis 1) "Taj_Mahal" None)
    as (R & _ & _ & X & _); [reflexivity | reflexivity |].
  split; [exact R|]. rewrite X. reflexivity.
Defined.

(** The two-call scenario of the spec: on an engine that does not know [p],
    [add(v1, p, r1)] then [add(v2, p, r2)] leaves [v1] stored at the ordinal
    of [p]. *)
Lemma first_write_wins w v1 v2 p r1 r2 :
  length v1 = dimension -> length v2 = dimension ->
  Faiss.d (index (self w)) = dimension ->
  has_place_name (metadata (self w)) p = false ->
  let w1 := exec (add_landmark v1 p r1) w in
  let w2 := exec (add_landmark v2 p r2) w1 in
  w2 = w1 /\
  nth_error (Faiss.xb (index (self w2))) (Faiss.ntotal (index (self w)))
    = Some v1.
Proof.
  intros L1 L2 E D w1 w2. subst w1 w2. unfold exec.
  rewrite (add_landmark_fresh v1 p r1 w L1 D E). cbn [snd].
  rewrite add_landmark_duplicate; cbn [snd self metadata appended]; auto.
  - split; [reflexivity|]. cbn. unfold Faiss.ntotal.
    rewrite nth_error_app2, Nat.sub_diag; [reflexivity | lia].
  - rewrite has_place_name_app. cbn. rewrite String.eqb_refl.
    apply orb_true_r.
Qed.

(** C10.  An [add_landmark] for a place name already in the catalog leaves
    the disk as it was, write log included: [_save_database] is not reached
    and neither artifact is written, whatever the embedding. *)
Theorem duplicate_add_writes_nothing w v p ip :
  has_place_name (metadata (self w)) p = true ->
  disk (exec (add_landmark v p ip) w) = disk w /\
  writes (disk (exec (add_landmark v p ip) w)) = writes (disk w).
Proof.
  intros D. unfold exec.
  destruct (Nat.eq_dec (length v) dimension) as [L|L].
  - now rewrite (add_landmark_duplicate v p ip w L D).
  - now rewrite (add_landmark_bad_dimension v p ip w L).
Qed.

Lemma duplicate_add_writes_nothing_witness :
  has_place_name (metadata (self world_one)) "Taj_Mahal" = true /\
  disk (exec (add_landmark (basis 1) "Taj_Mahal" None) world_one) =
    disk world_one.
Proof.
  assert (H : has_place_name (metadata (self world_one)) "Taj_Mahal" = true)
    by reflexivity.
  split; [exact H|].
  exact (proj1 (duplicate_add_writes_nothing world_one (basis 1)
                  "Taj_Mahal" None H)).
Defined.

(** A successful add of a new place, by contrast, writes both artifacts. *)
Lemma fresh_add_writes_both w v p ip :
  length v = dimension ->
  has_place_name (metadata (self w)) p = false ->
  Faiss.d (index (self w)) = dimension ->
  let w' := exec (add_landmark v p ip) w in
  writes (disk w') =
    PickleDump (metadata (self w')) :: WriteIndex (index (self w')) ::
    writes (disk w).
Proof.
  intros L D E. cbn zeta. unfold exec.
  now rewrite (add_landmark_fresh v p ip w L D E).
Qed.

(** ** Empty index *)

(** C7.  When the index is empty, [search] returns the empty list and raises
    nothing, for every vector and every [k], and [get_best_match] returns
    [None] for every threshold. *)
Theorem empty_index_search_and_best_match w v k t :
  Faiss.ntotal (index (self w)) = 0 ->
  search v k w = (Ok [], w) /\ get_best_match v t w = (Ok None, w).
Proof.
  intros H. split; [now apply search_empty|].
  rewrite get_best_match_run. unfold search_of. now rewrite H.
Qed.

Lemma empty_index_search_and_best_match_witness :
  search [1; 2; 3]%Q 5 new_world = (Ok [], new_world) /\
  get_best_match (basis 0) (6 # 10) new_world = (Ok None, new_world).
Proof.
  split.
  - apply (empty_index_search_and_best_match new_world [1; 2; 3]%Q 5 0%Q).
    reflexivity.
  - apply (empty_index_search_and_best_match new_world (basis 0) 5 (6 # 10)%Q).
    reflexivity.
Defined.

(** ** Positional identity *)

Lemma positional_identity_appended s v p ip :
  positional_identity s -> positional_identity (appended s v p ip).
Proof.
  intros [Hlen Hord]. split.
  - unfold appended, Faiss.ntotal in *. cbn. rewrite !length_app. cbn. lia.
  - intros i md. unfold appended. cbn.
    destruct (Nat.lt_ge_cases i (length (metadata s))) as [Lt|Ge].
    + rewrite nth_error_app1 by exact Lt. apply Hord.
    + rewrite nth_error_app2 by exact Ge.
      destruct (i - length (metadata s)) as [|j] eqn:E; cbn.
      * intros [= <-]. cbn. lia.
      * now destruct j.
Qed.

Lemma add_landmark_self_cases w v p ip :
  self (exec (add_landmark v p ip) w) = self w \/
  self (exec (add_landmark v p ip) w) = appended (self w) v p ip.
Proof.
  unfold exec.
  destruct (add_landmark_cases v p ip w) as [E|[E|[E|[_ E]]]]; rewrite E;
    cbn [snd self]; auto.
Qed.

Lemma exec_add_positional_identity w v p ip :
  positional_identity (self w) ->
  positional_identity (self (exec (add_landmark v p ip) w)).
Proof.
  intros I. destruct (add_landmark_self_cases w v p ip) as [-> | ->];
    [exact I | now apply positional_identity_appended].
Qed.

(** C9.  Positional identity is preserved by every [add_landmark]: if the
    catalog has the length of the index and every entry's stored ordinal is
    its position, the same holds after the call, whatever its outcome; and
    when the call appends an entry, that entry's ordinal is the new size of
    the index minus one. *)
Theorem add_preserves_positional_identity w v p ip :
  positional_identity (self w) ->
  let w' := exec (add_landmark v p ip) w in
  positional_identity (self w') /\
  (self w' = self w \/
   exists md,
     metadata (self w') = metadata (self w) ++ [md] /\
     Faiss.ntotal (index (self w')) = S (Faiss.ntotal (index (self w))) /\
     Metadata.index md = Faiss.ntotal (index (self w')) - 1).
Proof.
  intros I. cbn zeta. split; [now apply exec_add_positional_identity|].
  destruct (add_landmark_self_cases w v p ip) as [-> | ->]; [now left|].
  right. eexists. split; [reflexivity|].
  unfold appended, Faiss.ntotal. cbn. rewrite length_app. cbn. lia.
Qed.

Lemma new_world_positional_identity : positional_identity (self new_world).
Proof.
  split; [reflexivity|]. intros [|i] md H; discriminate H.
Qed.

Lemma add_preserves_positional_identity_witness :
  positional_identity (self new_world) /\
  positional_identity (self world_one).
Proof.
  split; [exact new_world_positional_identity|].
  exact (proj1 (add_preserves_positional_identity new_world (basis 0)
                  "Taj_Mahal" (Some "landmarks/Taj_Mahal/1.jpg"%string)
                  new_world_positional_identity)).
Defined.

(** Every engine reached from a new one by adds satisfies the invariant. *)
Lemma adds_positional_identity (calls : list (list Q * string * option string)) :
  positional_identity
    (self (fold_left (fun w c => exec (add_landmark (fst (fst c)) (snd (fst c))
                                        (snd c)) w) calls new_world)).
Proof.
  generalize new_world new_world_positional_identity.
  induction calls as [|c calls IH]; intros w I; cbn; [exact I|].
  apply IH. now apply exec_add_positional_identity.
Qed.

(** ** Size and order of the results *)

Lemma faiss_search_sorted ix q k DI :
  Faiss.search ix q k = Ok DI ->
  length DI <= k /\ StronglySorted Faiss.by_distance DI /\
  (forall p, In p DI -> In p (Faiss.all_distances ix q)).
Proof.
  unfold Faiss.search.
  destruct (negb (length q =? Faiss.d ix)); [discriminate|].
  destruct (k =? 0); [discriminate|]. intros [= <-].
  split; [rewrite length_firstn; lia|]. split.
  - apply FaissFacts.firstn_sorted, FaissFacts.sort_sorted.
  - intros p Hp. apply FaissFacts.firstn_In in Hp.
    now apply (Permutation_in _ (FaissFacts.sort_perm _)).
Qed.

(** C6.  For every query and every [k]: when [search] returns, it returns
    at most [k] results, in ascending order of distance and with
    non-increasing confidence; and it returns unless the index is non-empty
    and the index rejects the call (a query whose length is not the index
    dimension, or [k = 0]). *)
Theorem search_at_most_k_sorted w q k :
  match fst (search q k w) with
  | Ok results =>
      length results <= k /\
      StronglySorted closer results /\
      StronglySorted more_confident results
  | Raise e =>
      e = AssertionError /\
      Faiss.ntotal (index (self w)) <> 0 /\
      (length q <> Faiss.d (index (self w)) \/ k = 0)
  end.
Proof.
  rewrite search_run. cbn [fst]. unfold search_of.
  destruct (Nat.eqb_spec (Faiss.ntotal (index (self w))) 0) as [E|N].
  - cbn. repeat split; try constructor. lia.
  - destruct (Faiss.search _ _ _) as [DI|e] eqn:S.
    + apply faiss_search_sorted in S. destruct S as (L & S & _).
      split; [|split].
      * pose proof (rows_length (metadata (self w)) DI). lia.
      * now apply rows_sorted.
      * now apply rows_confidence_sorted.
    + unfold Faiss.search in S.
      destruct (Nat.eqb_spec (length q) (Faiss.d (index (self w)))) as [Q|Q];
        cbn in S.
      * destruct (Nat.eqb_spec
                    (Nat.min k (Faiss.ntotal (index (self w)))) 0) as [Z|Z];
          [|discriminate]. injection S as <-.
        repeat split; [exact N|]. right. lia.
      * injection S as <-. repeat split; [exact N|]. now left.
Qed.

(** ** Distance and confidence *)

Lemma clamp_confidence (dq : Q) :
  (0 <= dq ->
   Qmax 0 (1 - dq / 2) == clamp (1 - dq / 2) 0 1 /\
   0 <= Qmax 0 (1 - dq / 2) <= 1)%Q.
Proof.
  intros H. unfold clamp.
  assert (Hh : (0 <= dq / 2)%Q) by (rewrite half; lra).
  set (h := (dq / 2)%Q) in *. clearbody h.
  destruct (Q.min_spec (1 - h) 1) as [[Hm Em]|[Hm Em]];
  destruct (Q.max_spec 0 (1 - h)) as [[H1 E1]|[H1 E1]];
  destruct (Q.max_spec 0 (Qmin (1 - h) 1)) as [[H2 E2]|[H2 E2]];
    rewrite E1, E2; lra.
Qed.

(** C5.  Every result returned by [search] is the row of a stored vector:
    its distance is the squared Euclidean distance from the query to that
    vector, its confidence equals [clamp(1 - d/2, 0, 1)] for that distance
    [d], and so lies in [0, 1]. *)
Theorem confidence_is_clamped_distance w q k results :
  fst (search q k w) = Ok results ->
  Forall (fun r =>
    (exists i v,
       nth_error (Faiss.xb (index (self w))) i = Some v /\
       nth_error (metadata (self w)) i = Some (Match.metadata r) /\
       Match.distance r = Faiss.fvec_L2sqr q v) /\
    (Match.confidence r == clamp (1 - Match.distance r / 2) 0 1)%Q /\
    (0 <= Match.confidence r <= 1)%Q) results.
Proof.
  rewrite search_run. cbn [fst]. unfold search_of.
  destruct (Faiss.ntotal (index (self w)) =? 0).
  - intros [= <-]. constructor.
  - destruct (Faiss.search _ _ _) as [DI|e] eqn:S; [|discriminate].
    intros [= <-]. apply faiss_search_sorted in S.
    destruct S as (_ & _ & Hin).
    apply Forall_forall. intros r Hr. apply rows_In in Hr.
    destruct Hr as (dq & i & md & Hp & Hmd & ->). cbn.
    apply Hin, FaissFacts.all_distances_In in Hp.
    destruct Hp as (v & Hv & ->). split.
    + now exists i, v.
    + apply clamp_confidence, FaissFacts.fvec_L2sqr_nonneg.
Qed.

Lemma confidence_is_clamped_distance_witness :
  exists results,
    fst (search (basis 1) 5 world_two) = Ok results /\
    length results = 2 /\
    Forall (fun r =>
      (Match.confidence r == clamp (1 - Match.distance r / 2) 0 1)%Q /\
      (0 <= Match.confidence r <= 1)%Q) results.
Proof.
  eexists. split; [vm_compute; reflexivity|]. split; [reflexivity|].
  eapply Forall_impl;
    [| apply (confidence_is_clamped_distance world_two (basis 1) 5);
       vm_compute; reflexivity].
  intros r (_ & H). exact H.
Defined.

(** ** Best match *)

Lemma search_of_length s q k results :
  search_of s q k = Ok results -> length results <= k.
Proof.
  unfold search_of. destruct (Faiss.ntotal (index s) =? 0).
  - intros [= <-]. cbn. lia.
  - destruct (Faiss.search _ _ _) as [DI|e] eqn:S; [|discriminate].
    intros [= <-]. apply faiss_search_sorted in S. destruct S as (L & _).
    pose proof (rows_length (metadata s) DI). lia.
Qed.

Lemma search_of_ok s q k :
  length q = Faiss.d (index s) -> 0 < k ->
  exists results, search_of s q k = Ok results.
Proof.
  intros L K. unfold search_of, Faiss.search.
  destruct (Nat.eqb_spec (Faiss.ntotal (index s)) 0) as [E|N];
    [now eexists|].
  rewrite L, Nat.eqb_refl. cbn.
  destruct (Nat.eqb_spec (Nat.min k (Faiss.ntotal (index s))) 0) as [Z|Z];
    [lia | now eexists].
Qed.

(** C4.  For every valid query embedding (length D, on an index of
    dimension D) and every threshold [t], [search(v, 1)] returns a list of at
    most one result, and [get_best_match(v, t)] returns a match exactly when
    that list is non-empty and its result's confidence is greater than or
    equal to [t] (equality included); the match is that result.  Otherwise
    it returns [None]. *)
Theorem best_match_iff_top_confidence_ge_threshold w v t :
  length v = dimension ->
  Faiss.d (index (self w)) = dimension ->
  exists results,
    search v 1 w = (Ok results, w) /\
    length results <= 1 /\
    (forall r,
       get_best_match v t w = (Ok (Some r), w) <->
       hd_error results = Some r /\ (t <= Match.confidence r)%Q) /\
    (get_best_match v t w = (Ok None, w) <->
     results = [] \/
     exists r, hd_error results = Some r /\ (Match.confidence r < t)%Q).
Proof.
  intros L D.
  destruct (search_of_ok (self w) v 1) as (results & S); [congruence | lia |].
  exists results. rewrite search_run, get_best_match_run, S.
  split; [reflexivity|]. split; [now apply search_of_length in S|].
  destruct results as [|r0 rest]; cbn [hd_error].
  - split.
    + intros r. split; [discriminate | intros [H _]; discriminate].
    + split; [now left | reflexivity].
  - destruct (Qle_bool t (Match.confidence r0)) eqn:C.
    + apply Qle_bool_iff in C. split.
      * intros r. split.
        -- intros [= <-]. now split.
        -- intros [[= <-] _]. reflexivity.
      * split; [discriminate|].
        intros [H|(r & [= <-] & H)]; [discriminate | lra].
    + assert (C' : (Match.confidence r0 < t)%Q).
      { apply Qnot_le_lt. intros H. apply Qle_bool_iff in H. congruence. }
      split.
      * intros r. split; [discriminate|].
        intros [[= <-] H]. lra.
      * split; [|reflexivity]. intros _. right. now exists r0.
Qed.

Lemma best_match_iff_top_confidence_ge_threshold_witness :
  exists r,
    get_best_match (basis 1) 1 world_two = (Ok (Some r), world_two) /\
    Match.place_name r = "Eiffel_Tower"%string /\
    (Match.confidence r == 1)%Q.
Proof.
  destruct (best_match_iff_top_confidence_ge_threshold world_two (basis 1) 1)
    as (results & S & _ & Hsome & _); [reflexivity | reflexivity |].
  assert (E : fst (search (basis 1) 1 world_two) = Ok results)
    by now rewrite S.
  vm_compute in E. injection E as <-.
  eexists. split; [apply Hsome; split; [reflexivity | vm_compute; discriminate]|].
  split; reflexivity.
Defined.

(** ** Add, then search *)

(** C8 (counterexample).  An engine built by two adds holds "Taj_Mahal" with
    the first basis vector and "Eiffel_Tower" with the second.  The second
    basis vector is a valid embedding (length D, unit norm); adding it for
    "Taj_Mahal" is the dedup no-op, and the search that follows returns
    "Eiffel_Tower", not "Taj_Mahal". *)
Lemma add_then_search_returns_other_place :
  length (basis 1) = dimension /\
  (sq_norm (basis 1) == 1)%Q /\
  exists r,
    search (basis 1) 1
      (exec (add_landmark (basis 1) "Taj_Mahal" None) world_two) =
    (Ok [r], world_two) /\
    Match.place_name r = "Eiffel_Tower"%string /\
    Match.place_name r <> "Taj_Mahal"%string.
Proof.
  split; [reflexivity|]. split; [vm_compute; reflexivity|].
  eexists. split; [vm_compute; reflexivity|].
  split; [reflexivity | discriminate].
Qed.

Lemma search_appended_head s v p ip :
  exists dq i rest,
    Faiss.sort (Faiss.all_distances (index (appended s v p ip)) v) =
      (dq, i) :: rest /\
    (dq == 0)%Q /\
    (i = Faiss.ntotal (index s) \/
     exists u, nth_error (Faiss.xb (index s)) i = Some u /\
               (Faiss.fvec_L2sqr v u == 0)%Q).
Proof.
  set (ix := index (appended s v p ip)).
  set (n := Faiss.ntotal (index s)).
  assert (Hnew : In (Faiss.fvec_L2sqr v v, n) (Faiss.all_distances ix v)).
  { apply FaissFacts.all_distances_In. exists v. split; [|reflexivity].
    subst ix n. unfold appended, Faiss.ntotal. cbn.
    rewrite nth_error_app2, Nat.sub_diag; [reflexivity | lia]. }
  destruct (Faiss.sort (Faiss.all_distances ix v)) as [|[dq i] rest] eqn:E.
  - apply (Permutation_in _ (Permutation_sym (FaissFacts.sort_perm _))) in Hnew.
    rewrite E in Hnew. destruct Hnew.
  - exists dq, i, rest. split; [reflexivity|].
    pose proof (FaissFacts.sort_head_min _ _ _ _ E Hnew) as Hmin.
    cbn [fst] in Hmin. rewrite FaissFacts.fvec_L2sqr_self in Hmin.
    assert (Hin : In (dq, i) (Faiss.all_distances ix v)).
    { apply (Permutation_in _ (FaissFacts.sort_perm _)). rewrite E. now left. }
    apply FaissFacts.all_distances_In in Hin. destruct Hin as (u & Hu & Hd).
    assert (Z : (dq == 0)%Q).
    { pose proof (FaissFacts.fvec_L2sqr_nonneg v u). rewrite <- Hd in H. lra. }
    split; [exact Z|].
    subst ix. unfold appended in Hu. cbn in Hu.
    destruct (Nat.lt_ge_cases i (length (Faiss.xb (index s)))) as [Lt|Ge].
    + right. rewrite nth_error_app1 in Hu by exact Lt.
      exists u. split; [exact Hu|]. now rewrite <- Hd.
    + left. rewrite nth_error_app2 in Hu by exact Ge.
      destruct (i - length (Faiss.xb (index s))) as [|j] eqn:Ej.
      * subst n. unfold Faiss.ntotal. lia.
      * now destruct j.
Qed.

(** C8 (amended).  For every embedding [v] of length D and every place name
    [p] not yet in the catalog of an engine whose index has dimension D and
    whose catalog has the length of its index: [add_landmark v p ref]
    returns normally, and the [search(v, 1)] that follows returns exactly one
    result, at distance 0 and with confidence 1; its place name is [p]
    provided no vector stored before is at distance 0 from [v]. *)
Theorem add_then_search_finds_place w v p ip :
  length v = dimension ->
  Faiss.d (index (self w)) = dimension ->
  length (metadata (self w)) = Faiss.ntotal (index (self w)) ->
  has_place_name (metadata (self w)) p = false ->
  let w' := exec (add_landmark v p ip) w in
  fst (add_landmark v p ip w) = Ok tt /\
  exists r,
    search v 1 w' = (Ok [r], w') /\
    (Match.distance r == 0)%Q /\
    (Match.confidence r == 1)%Q /\
    ((forall u, In u (Faiss.xb (index (self w))) ->
                ~ (Faiss.fvec_L2sqr v u == 0)%Q) ->
     Match.place_name r = p).
Proof.
  intros L D A F. cbn zeta. unfold exec.
  rewrite (add_landmark_fresh v p ip w L F D). cbn [fst snd].
  split; [reflexivity|].
  set (s' := appended (self w) v p ip).
  destruct (search_appended_head (self w) v p ip)
    as (dq & i & rest & Hsort & Hz & Hi).
  fold s' in Hsort.
  assert (Hn : Faiss.ntotal (index s') = S (Faiss.ntotal (index (self w)))).
  { subst s'. unfold appended, Faiss.ntotal. cbn. rewrite length_app. cbn. lia. }
  assert (Hlen : length (metadata s') = S (Faiss.ntotal (index (self w)))).
  { subst s'. unfold appended. cbn. rewrite length_app. cbn. lia. }
  assert (Hi' : i < length (metadata s')).
  { rewrite Hlen. destruct Hi as [->|(u & Hu & _)]; [lia|].
    assert (Hu' : nth_error (Faiss.xb (index (self w))) i <> None)
      by congruence.
    apply nth_error_Some in Hu'. unfold Faiss.ntotal. lia. }
  destruct (nth_error (metadata s') i) as [md|] eqn:Emd;
    [|apply nth_error_None in Emd; lia].
  exists {| Match.place_name := Metadata.place_name md;
            Match.confidence := Qmax 0 (1 - dq / 2);
            Match.distance := dq;
            Match.metadata := md |}.
  split; [|split; [exact Hz | split]].
  - rewrite search_run. cbn [self]. fold s'. f_equal.
    unfold search_of, Faiss.search. rewrite Hn. cbn [Nat.eqb].
    assert (Ed : (length v =? Faiss.d (index s')) = true).
    { apply Nat.eqb_eq. subst s'. unfold appended. cbn. congruence. }
    rewrite Ed. cbn [negb Nat.min Nat.eqb]. rewrite Hsort. cbn [firstn flat_map].
    unfold search_row. apply Nat.ltb_lt in Hi'. rewrite Hi', Emd. reflexivity.
  - cbn. destruct (Q.max_spec 0 (1 - dq / 2)) as [[_ E]|[H E]]; rewrite E.
    + rewrite half, Hz. reflexivity.
    + rewrite half, Hz in H. lra.
  - intros Hnone. cbn. destruct Hi as [->|(u & Hu & Hd)].
    + subst s'. unfold appended in Emd. cbn in Emd.
      rewrite nth_error_app2, A, Nat.sub_diag in Emd by lia.
      now injection Emd as <-.
    + exfalso. apply (Hnone u); [|exact Hd]. eapply nth_error_In; eauto.
Qed.

Lemma add_then_search_finds_place_witness :
  exists r,
    search (basis 1) 1 world_two = (Ok [r], world_two) /\
    (Match.distance r == 0)%Q /\
    (Match.confidence r == 1)%Q /\
    Match.place_name r = "Eiffel_Tower"%string.
Proof.
  destruct (add_then_search_finds_place world_one (basis 1) "Eiffel_Tower" None
              eq_refl eq_refl eq_refl eq_refl) as (_ & r & S & Dz & Cz & Pn).
  exists r. split; [exact S|]. split; [exact Dz|]. split; [exact Cz|].
  apply Pn. intros u [<-|[]]. vm_compute. discriminate.
Defined.

(** * Further properties of the engine *)

(** ** What [add_landmark] keeps *)

(** The append outcome happens exactly for a vector of length D, a new place
    name and an index of dimension D. *)
Lemma add_landmark_self_appended w v p ip :
  self (exec (add_landmark v p ip) w) = self w \/
  (length v = dimension /\
   Faiss.d (index (self w)) = dimension /\
   has_place_name (metadata (self w)) p = false /\
   add_landmark v p ip w =
     (Ok tt, {| self := appended (self w) v p ip;
                disk := saved (appended (self w) v p ip) (disk w) |})).
Proof.
  unfold exec.
  destruct (Nat.eq_dec (length v) dimension) as [L|L];
    [|left; now rewrite add_landmark_bad_dimension].
  destruct (has_place_name (metadata (self w)) p) eqn:D;
    [left; now rewrite add_landmark_duplicate|].
  destruct (Nat.eq_dec (Faiss.d (index (self w))) dimension) as [E|E];
    [|left; now rewrite add_landmark_index_mismatch].
  right. repeat split; auto. now apply add_landmark_fresh.
Qed.

(** X1.  The disk follows the engine: if a restart would load the engine in
    memory before an [add_landmark], it would load the engine in memory after
    it as well, whatever the outcome of the call; a restarted engine then
    answers every search as the running one does. *)
Theorem add_keeps_disk_in_sync w v p ip :
  persisted w ->
  persisted (exec (add_landmark v p ip) w) /\
  forall q k,
    search_of (_load_database (disk (exec (add_landmark v p ip) w))) q k =
    search_of (self (exec (add_landmark v p ip) w)) q k.
Proof.
  intros P.
  assert (P' : persisted (exec (add_landmark v p ip) w)).
  { unfold persisted, exec in *.
    destruct (add_landmark_cases v p ip w) as [E|[E|[E|[_ E]]]]; rewrite E;
      cbn [snd self disk]; auto. }
  split; [exact P'|]. intros q k. now rewrite P'.
Qed.

Lemma new_world_persisted : persisted new_world.
Proof. reflexivity. Qed.

Lemma add_keeps_disk_in_sync_witness :
  persisted new_world /\ _load_database (disk world_two) = self world_two.
Proof.
  split; [exact new_world_persisted|].
  apply (add_keeps_disk_in_sync world_one (basis 1) "Eiffel_Tower" None).
  apply (add_keeps_disk_in_sync new_world (basis 0) "Taj_Mahal"
           (Some "landmarks/Taj_Mahal/1.jpg"%string)).
  exact new_world_persisted.
Defined.

Lemma has_place_name_false_not_In mds p :
  has_place_name mds p = false -> ~ In p (map Metadata.place_name mds).
Proof.
  intros H Hin. apply in_map_iff in Hin. destruct Hin as (md & E & Hmd).
  assert (T : has_place_name mds p = true)
    by (apply has_place_name_In; now exists md).
  congruence.
Qed.

(** X2.  One entry per place: if the place names of the catalog are pairwise
    distinct before an [add_landmark], they are after it. *)
Theorem add_keeps_place_names_unique w v p ip :
  NoDup (map Metadata.place_name (metadata (self w))) ->
  NoDup (map Metadata.place_name
           (metadata (self (exec (add_landmark v p ip) w)))).
Proof.
  intros N.
  destruct (add_landmark_self_appended w v p ip)
    as [-> | (_ & _ & F & E)]; [exact N|].
  unfold exec. rewrite E. cbn [snd self appended metadata].
  rewrite map_app. cbn [map Metadata.place_name].
  apply NoDup_app; [exact N | repeat constructor; intros [] |].
  intros x Hx [<-|[]]. now apply (has_place_name_false_not_In _ _ F).
Qed.

Lemma add_keeps_place_names_unique_witness :
  NoDup (map Metadata.place_name (metadata (self world_two))).
Proof.
  apply (add_keeps_place_names_unique world_one (basis 1) "Eiffel_Tower" None).
  apply (add_keeps_place_names_unique new_world (basis 0) "Taj_Mahal"
           (Some "landmarks/Taj_Mahal/1.jpg"%string)).
  constructor.
Defined.

(** X3.  Every stored vector has the dimension of the index: if that holds
    before an [add_landmark], it holds after it, and the dimension of the
    index does not change. *)
Theorem add_keeps_vector_dimension w v p ip :
  Forall (fun x => length x = Faiss.d (index (self w)))
         (Faiss.xb (index (self w))) ->
  let w' := exec (add_landmark v p ip) w in
  Faiss.d (index (self w')) = Faiss.d (index (self w)) /\
  Forall (fun x => length x = Faiss.d (index (self w')))
         (Faiss.xb (index (self w'))).
Proof.
  intros F. cbn zeta.
  destruct (add_landmark_self_appended w v p ip)
    as [-> | (L & D & _ & E)]; [now split|].
  unfold exec. rewrite E. cbn [snd self appended index Faiss.d Faiss.xb].
  split; [reflexivity|].
  apply Forall_app. split; [exact F|]. constructor; [congruence | constructor].
Qed.

Lemma add_keeps_vector_dimension_witness :
  Forall (fun x => length x = dimension) (Faiss.xb (index (self world_one))).
Proof.
  apply (add_keeps_vector_dimension new_world (basis 0) "Taj_Mahal"
           (Some "landmarks/Taj_Mahal/1.jpg"%string)).
  constructor.
Defined.

(** X4.  [add_landmark] only appends: the index and the catalog after the
    call are those before it followed by at most one new vector and one new
    entry (both or neither), so no stored vector or entry is removed or
    rewritten. *)
Theorem add_is_append_only w v p ip :
  exists xs mds,
    Faiss.xb (index (self (exec (add_landmark v p ip) w))) =
      Faiss.xb (index (self w)) ++ xs /\
    metadata (self (exec (add_landmark v p ip) w)) =
      metadata (self w) ++ mds /\
    length xs = length mds /\ length xs <= 1.
Proof.
  destruct (add_landmark_self_appended w v p ip)
    as [-> | (_ & _ & _ & E)].
  - exists [], []. rewrite !app_nil_r. repeat split. cbn. lia.
  - unfold exec. rewrite E. cbn [snd self appended index metadata Faiss.xb].
    do 2 eexists. repeat split. cbn. lia.
Qed.

(** X5.  When [add_landmark] returns normally the place is in the catalog:
    either it was there already or the call has just appended it. *)
Theorem add_ok_place_in_catalog w v p ip :
  fst (add_landmark v p ip w) = Ok tt ->
  has_place_name (metadata (self (exec (add_landmark v p ip) w))) p = true.
Proof.
  unfold exec. intros H.
  destruct (Nat.eq_dec (length v) dimension) as [L|L];
    [|rewrite add_landmark_bad_dimension in H by exact L; discriminate].
  destruct (has_place_name (metadata (self w)) p) eqn:D;
    [now rewrite add_landmark_duplicate|].
  destruct (Nat.eq_dec (Faiss.d (index (self w))) dimension) as [E|E];
    [|rewrite add_landmark_index_mismatch in H by assumption; discriminate].
  rewrite add_landmark_fresh by assumption.
  cbn [snd self appended metadata]. rewrite has_place_name_app. cbn.
  rewrite String.eqb_refl. apply orb_true_r.
Qed.

Lemma add_ok_place_in_catalog_witness :
  has_place_name (metadata (self world_two)) "Eiffel_Tower" = true.
Proof.
  apply (add_ok_place_in_catalog world_one (basis 1) "Eiffel_Tower" None).
  reflexivity.
Defined.

(** ** What [search] returns *)

Lemma faiss_search_inv ix q k DI :
  Faiss.search ix q k = Ok DI ->
  length q = Faiss.d ix /\ k <> 0 /\
  DI = firstn k (Faiss.sort (Faiss.all_distances ix q)).
Proof.
  unfold Faiss.search.
  destruct (Nat.eqb_spec (length q) (Faiss.d ix)) as [L|L]; [|discriminate].
  destruct (Nat.eqb_spec k 0) as [Z|Z]; [discriminate|].
  cbn. intros [= <-]. auto.
Qed.

Lemma faiss_search_ok ix q k :
  length q = Faiss.d ix -> k <> 0 ->
  Faiss.search ix q k = Ok (firstn k (Faiss.sort (Faiss.all_distances ix q))).
Proof.
  intros L K. unfold Faiss.search.
  rewrite L, Nat.eqb_refl. apply Nat.eqb_neq in K. now rewrite K.
Qed.

Lemma all_distances_label_lt ix q dq i :
  In (dq, i) (Faiss.all_distances ix q) -> i < Faiss.ntotal ix.
Proof.
  intros H. apply FaissFacts.all_distances_In in H.
  destruct H as (v & Hv & _).
  apply nth_error_Some. congruence.
Qed.

Lemma all_distances_labels ix q :
  map snd (Faiss.all_distances ix q) = seq 0 (Faiss.ntotal ix).
Proof.
  unfold Faiss.all_distances, Faiss.ntotal.
  generalize 0. induction (Faiss.xb ix) as [|x l IH]; intros s; cbn;
    [reflexivity | now rewrite IH].
Qed.

Lemma sorted_labels_NoDup ix q :
  NoDup (map snd (Faiss.sort (Faiss.all_distances ix q))).
Proof.
  eapply Permutation_NoDup.
  - apply Permutation_map, Permutation_sym, FaissFacts.sort_perm.
  - rewrite all_distances_labels. apply seq_NoDup.
Qed.

Lemma rows_full_length mds DI :
  (forall p, In p DI -> snd p < length mds) ->
  length (flat_map (search_row mds) DI) = length DI.
Proof.
  induction DI as [|[dq i] DI IH]; intros H; cbn [flat_map]; [reflexivity|].
  rewrite length_app, IH by (intros p Hp; apply H; now right).
  assert (Hi : i < length mds) by (apply (H (dq, i)); now left).
  unfold search_row. apply Nat.ltb_lt in Hi as Hb. rewrite Hb.
  destruct (nth_error mds i) eqn:E; [reflexivity|].
  apply nth_error_None in E. lia.
Qed.

(** X6.  On an engine whose catalog has the length of its index, a search
    with a query of the index's dimension and [k >= 1] returns exactly
    [min(k, ntotal)] results: no neighbour is dropped. *)
Theorem search_returns_min_k_ntotal w q k :
  length (metadata (self w)) = Faiss.ntotal (index (self w)) ->
  length q = Faiss.d (index (self w)) ->
  0 < k ->
  exists results,
    search q k w = (Ok results, w) /\
    length results = Nat.min k (Faiss.ntotal (index (self w))).
Proof.
  intros A L K. rewrite search_run. unfold search_of.
  destruct (Nat.eqb_spec (Faiss.ntotal (index (self w))) 0) as [E|N].
  - exists []. rewrite E, Nat.min_0_r. now split.
  - rewrite faiss_search_ok by (auto; lia).
    eexists. split; [reflexivity|].
    rewrite rows_full_length.
    + rewrite length_firstn, FaissFacts.sort_length,
        FaissFacts.all_distances_length. lia.
    + intros [dq i] Hp. apply FaissFacts.firstn_In in Hp.
      apply (Permutation_in _ (FaissFacts.sort_perm _)) in Hp.
      apply all_distances_label_lt in Hp. cbn. lia.
Qed.

Lemma search_returns_min_k_ntotal_witness :
  exists results,
    search (basis 0) 5 world_two = (Ok results, world_two) /\
    length results = 2.
Proof.
  apply (search_returns_min_k_ntotal world_two (basis 0) 5);
    [reflexivity | reflexivity | lia].
Defined.

Lemma sorted_split_le k l p q :
  StronglySorted Faiss.by_distance l ->
  In p (firstn k l) -> In q (skipn k l) -> (fst p <= fst q)%Q.
Proof.
  intros S; revert k; induction S as [|a l S IH F]; intros k Hp Hq.
  - now rewrite firstn_nil in Hp.
  - destruct k as [|k]; [destruct Hp|]. cbn in Hp, Hq.
    destruct Hp as [<-|Hp]; [|now apply (IH k)].
    rewrite Forall_forall in F. apply F.
    rewrite <- (firstn_skipn k l). apply in_or_app. now right.
Qed.

(** X7.  [search] returns nearest neighbours.  On an engine whose catalog
    has the length of its index, every stored vector is either among the
    results (its catalog entry with its distance to the query) or at least as
    far from the query as every result. *)
Theorem search_returns_nearest w q k results i u :
  length (metadata (self w)) = Faiss.ntotal (index (self w)) ->
  fst (search q k w) = Ok results ->
  nth_error (Faiss.xb (index (self w))) i = Some u ->
  (exists r, In r results /\
     nth_error (metadata (self w)) i = Some (Match.metadata r) /\
     Match.distance r = Faiss.fvec_L2sqr q u) \/
  Forall (fun r => (Match.distance r <= Faiss.fvec_L2sqr q u)%Q) results.
Proof.
  intros A S Hu. rewrite search_run in S. cbn [fst] in S.
  unfold search_of in S.
  destruct (Nat.eqb_spec (Faiss.ntotal (index (self w))) 0) as [E|N].
  - injection S as <-. right. constructor.
  - destruct (Faiss.search _ _ _) as [DI|e] eqn:F; [|discriminate].
    injection S as <-. apply faiss_search_inv in F.
    destruct F as (_ & _ & ->).
    set (k' := Nat.min k (Faiss.ntotal (index (self w)))).
    set (l := Faiss.sort (Faiss.all_distances (index (self w)) q)).
    assert (Hin : In (Faiss.fvec_L2sqr q u, i) l).
    { apply (Permutation_in _ (Permutation_sym (FaissFacts.sort_perm _))).
      apply FaissFacts.all_distances_In. now exists u. }
    rewrite <- (firstn_skipn k' l) in Hin. apply in_app_or in Hin.
    destruct Hin as [Hin|Hin].
    + left.
      assert (Hi : i < length (metadata (self w))).
      { rewrite A. apply nth_error_Some. congruence. }
      destruct (nth_error (metadata (self w)) i) as [md|] eqn:Emd;
        [|apply nth_error_None in Emd; lia].
      eexists. split; [|split].
      * apply rows_In. exists (Faiss.fvec_L2sqr q u), i, md.
        split; [exact Hin|]. split; [exact Emd | reflexivity].
      * reflexivity.
      * reflexivity.
    + right. apply Forall_forall. intros r Hr. apply rows_In in Hr.
      destruct Hr as (dq & j & md & Hp & _ & ->). cbn.
      apply (sorted_split_le k' l (dq, j) (Faiss.fvec_L2sqr q u, i));
        [apply FaissFacts.sort_sorted | exact Hp | exact Hin].
Qed.

Lemma search_returns_nearest_witness :
  exists r,
    fst (search (basis 1) 1 world_two) = Ok [r] /\
    (Match.distance r <= Faiss.fvec_L2sqr (basis 1) (basis 0))%Q.
Proof.
  eexists. split; [vm_compute; reflexivity|].
  destruct (search_returns_nearest world_two (basis 1) 1 _ 0 (basis 0)
              eq_refl eq_refl eq_refl) as [(r & [<-|[]] & E & _)|F].
  - vm_compute in E. discriminate E.
  - now inversion F.
Defined.

Lemma firstn_le_prefix {A} a b (l : list A) :
  a <= b -> firstn b l = firstn a l ++ firstn (b - a) (skipn a l).
Proof.
  revert a b; induction l as [|x l IH]; intros a b H.
  - now rewrite skipn_nil, !firstn_nil.
  - destruct a as [|a]; [now rewrite Nat.sub_0_r|].
    destruct b as [|b]; [lia|]. cbn. f_equal. apply IH. lia.
Qed.

(** X8.  Asking for more results only extends the list: for [1 <= k <= k'],
    the results of [search(q, k)] are the first results of [search(q, k')],
    so the best match is the head of every longer answer. *)
Theorem search_prefix_in_k s q k k' results :
  0 < k -> k <= k' ->
  search_of s q k = Ok results ->
  exists more, search_of s q k' = Ok (results ++ more).
Proof.
  intros K KK. unfold search_of.
  destruct (Nat.eqb_spec (Faiss.ntotal (index s)) 0) as [E|N].
  - intros [= <-]. now exists [].
  - destruct (Faiss.search _ _ (Nat.min k _)) as [DI|e] eqn:F; [|discriminate].
    intros [= <-]. apply faiss_search_inv in F. destruct F as (L & _ & ->).
    rewrite faiss_search_ok by (auto; lia).
    rewrite (firstn_le_prefix (Nat.min k (Faiss.ntotal (index s)))
               (Nat.min k' (Faiss.ntotal (index s)))) by lia.
    rewrite flat_map_app. now eexists.
Qed.

Lemma search_prefix_in_k_witness :
  exists top more,
    search_of (self world_two) (basis 1) 1 = Ok [top] /\
    search_of (self world_two) (basis 1) 5 = Ok (top :: more).
Proof.
  eexists.
  destruct (search_prefix_in_k (self world_two) (basis 1) 1 5 _
              ltac:(lia) ltac:(lia) eq_refl) as (more & E).
  exists more. split; [reflexivity | exact E].
Defined.

Lemma rows_ordinal_NoDup s DI :
  positional_identity s ->
  NoDup (map snd DI) ->
  NoDup (map ordinal (flat_map (search_row (metadata s)) DI)).
Proof.
  intros [_ P]. induction DI as [|[dq i] DI IH]; cbn [flat_map map];
    intros N; [constructor|].
  inversion N as [|? ? Hi N']; subst. rewrite map_app.
  assert (R : forall r, In r (flat_map (search_row (metadata s)) DI) ->
                        In (ordinal r) (map snd DI)).
  { intros r Hr. apply rows_In in Hr.
    destruct Hr as (dq' & j & md & Hp & Hmd & ->).
    unfold ordinal. cbn. rewrite (P j md Hmd).
    apply in_map_iff. now exists (dq', j). }
  apply NoDup_app; [| now apply IH |].
  - destruct (search_row_cases (metadata s) (dq, i)) as [->|(r & -> & _)];
      cbn; repeat constructor. intros [].
  - intros o Ho Ho'. apply in_map_iff in Ho. destruct Ho as (r & <- & Hr).
    apply search_row_In in Hr. destruct Hr as (md & Hmd & ->).
    apply in_map_iff in Ho'. destruct Ho' as (r' & Eo & Hr').
    apply R in Hr'. rewrite Eo in Hr'. unfold ordinal in Hr'. cbn in Hr'.
    rewrite (P i md Hmd) in Hr'. contradiction.
Qed.

Lemma firstn_map_NoDup {A B} (f : A -> B) k (l : list A) :
  NoDup (map f l) -> NoDup (map f (firstn k l)).
Proof.
  rewrite <- (firstn_skipn k l) at 1. rewrite map_app.
  apply NoDup_app_remove_r.
Qed.

(** X9.  No entry is returned twice: on an engine with positional identity
    the results of a search have pairwise distinct ordinals. *)
Theorem search_results_distinct w q k results :
  positional_identity (self w) ->
  fst (search q k w) = Ok results ->
  NoDup (map ordinal results).
Proof.
  intros P. rewrite search_run. cbn [fst]. unfold search_of.
  destruct (Faiss.ntotal (index (self w)) =? 0); [intros [= <-]; constructor|].
  destruct (Faiss.search _ _ _) as [DI|e] eqn:F; [|discriminate].
  intros [= <-]. apply faiss_search_inv in F. destruct F as (_ & _ & ->).
  apply rows_ordinal_NoDup; [exact P|].
  apply firstn_map_NoDup, sorted_labels_NoDup.
Qed.

Lemma world_two_positional_identity : positional_identity (self world_two).
Proof.
  apply exec_add_positional_identity, exec_add_positional_identity.
  exact new_world_positional_identity.
Qed.

Lemma search_results_distinct_witness :
  exists results,
    fst (search (basis 0) 5 world_two) = Ok results /\
    length results = 2 /\
    NoDup (map ordinal results).
Proof.
  eexists. split; [vm_compute; reflexivity|]. split; [reflexivity|].
  apply (search_results_distinct world_two (basis 0) 5);
    [exact world_two_positional_identity | vm_compute; reflexivity].
Defined.

(** ** Thresholds *)

Lemma search_of_confidence_nonneg s q k results r :
  search_of s q k = Ok results -> In r results ->
  (0 <= Match.confidence r)%Q.
Proof.
  unfold search_of. destruct (Faiss.ntotal (index s) =? 0).
  - intros [= <-] [].
  - destruct (Faiss.search _ _ _) as [DI|e]; [|discriminate].
    intros [= <-] Hr. apply rows_In in Hr.
    destruct Hr as (dq & i & md & _ & _ & ->). cbn. apply Q.le_max_l.
Qed.

(** X10.  Lowering the threshold keeps the match: if [get_best_match]
    returns a match at threshold [t], it returns the same match at every
    threshold [t' <= t]. *)
Theorem best_match_threshold_monotone w q t t' r :
  (t' <= t)%Q ->
  get_best_match q t w = (Ok (Some r), w) ->
  get_best_match q t' w = (Ok (Some r), w).
Proof.
  intros Ht. rewrite !get_best_match_run.
  destruct (search_of (self w) q 1) as [[|r0 rest]|e]; try discriminate.
  destruct (Qle_bool t (Match.confidence r0)) eqn:C; [|discriminate].
  intros [= <-]. apply Qle_bool_iff in C.
  assert (C' : Qle_bool t' (Match.confidence r0) = true)
    by (apply Qle_bool_iff; lra).
  now rewrite C'.
Qed.

Lemma best_match_threshold_monotone_witness :
  exists r,
    get_best_match (basis 1) (6 # 10) world_two = (Ok (Some r), world_two).
Proof.
  eexists.
  apply (best_match_threshold_monotone world_two (basis 1) 1 (6 # 10));
    [vm_compute; discriminate | vm_compute; reflexivity].
Defined.

(** X11.  [predict_label] is the best match without a threshold: for every
    threshold [t <= 0] it returns the place name of what
    [get_best_match(embedding, t)] returns, raises when it raises, and
    leaves the world as it is. *)
Theorem predict_label_is_best_match_at_zero w q t :
  (t <= 0)%Q ->
  predict_label q w =
  (match fst (get_best_match q t w) with
   | Ok best => Ok (option_map Match.place_name best)
   | Raise e => Raise e
   end, w).
Proof.
  intros Ht. rewrite get_best_match_run. cbn [fst].
  unfold predict_label, bind. rewrite search_run.
  destruct (search_of (self w) q 1) as [[|r rest]|e] eqn:S; try reflexivity.
  assert (C : Qle_bool t (Match.confidence r) = true).
  { apply Qle_bool_iff.
    pose proof (search_of_confidence_nonneg _ _ _ _ r S (or_introl eq_refl)).
    lra. }
  now rewrite C.
Qed.

Lemma predict_label_is_best_match_at_zero_witness :
  predict_label (basis 0) world_two = (Ok (Some "Taj_Mahal"%string), world_two).
Proof.
  rewrite (predict_label_is_best_match_at_zero world_two (basis 0) 0);
    [vm_compute; reflexivity | apply Qle_refl].
Defined.

(** ** Distance, cosine and confidence *)







(** * Further properties of [recognize_landmark] *)

Lemma search_of_In s q k results r :
  search_of s q k = Ok results -> In r results ->
  exists i v,
    nth_error (Faiss.xb (index s)) i = Some v /\
    nth_error (metadata s) i = Some (Match.metadata r) /\
    Match.place_name r = Metadata.place_name (Match.metadata r) /\
    Match.distance r = Faiss.fvec_L2sqr q v /\
    Match.confidence r = Qmax 0 (1 - Match.distance r / 2).
Proof.
  unfold search_of. destruct (Faiss.ntotal (index s) =? 0).
  - intros [= <-] [].
  - destruct (Faiss.search _ _ _) as [DI|e] eqn:F; [|discriminate].
    intros [= <-] Hr. apply faiss_search_sorted in F.
    destruct F as (_ & _ & Hin). apply rows_In in Hr.
    destruct Hr as (dq & i & md & Hp & Hmd & ->). cbn.
    apply Hin, FaissFacts.all_distances_In in Hp.
    destruct Hp as (v & Hv & ->). now exists i, v.
Qed.

(** What a match of [get_best_match] is: a catalog entry, with a confidence
    between the threshold and 1. *)
Lemma get_best_match_some q t w best :
  fst (get_best_match q t w) = Ok (Some best) ->
  (t <= Match.confidence best)%Q /\
  (0 <= Match.confidence best <= 1)%Q /\
  has_place_name (metadata (self w)) (Match.place_name best) = true.
Proof.
  rewrite get_best_match_run. cbn [fst].
  destruct (search_of (self w) q 1) as [[|r rest]|e] eqn:S; try discriminate.
  destruct (Qle_bool t (Match.confidence r)) eqn:C; [|discriminate].
  intros [= <-]. apply Qle_bool_iff in C. split; [exact C|].
  destruct (search_of_In _ _ _ _ r S (or_introl eq_refl))
    as (i & v & _ & Hmd & Hp & Hd & Hc).
  split.
  - rewrite Hc. apply clamp_confidence. rewrite Hd.
    apply FaissFacts.fvec_L2sqr_nonneg.
  - apply has_place_name_In. exists (Match.metadata r).
    split; [eapply nth_error_In; eauto | now rewrite Hp].
Qed.

Lemma get_best_match_frame q t w : snd (get_best_match q t w) = w.
Proof. now rewrite get_best_match_run. Qed.

Section PipelineFacts.

Variable Image : Type.
Variable Image_open : list byte -> result Image.
Variable extract_gps_from_bytes : list byte -> option (Q * Q).
Variable reverse_geocode : Q -> Q -> option string.
Variable generate_embedding : Image -> result (list Q).

Let recognize :=
  recognize_landmark Image Image_open extract_gps_from_bytes reverse_geocode
    generate_embedding.

Let visual := visual_search Image generate_embedding.

Lemma visual_search_run img gps w :
  exists r tr,
    visual img gps w = (r, w, tr) /\
    (In CallGenerateEmbedding tr) /\
    (forall la lo, ~ In (CallReverseGeocode la lo) tr) /\
    (forall b, ~ In (CallExtractGps b) tr) /\
    (forall resp, r = Ok resp ->
       source resp = "visual"%string /\
       coordinates resp = coords_of gps /\
       ((place_name resp = "Unknown"%string /\ confidence resp = 0%Q) \/
        ((6 # 10 <= confidence resp <= 1)%Q /\
         has_place_name (metadata (self w)) (place_name resp) = true))).
Proof.
  unfold visual, visual_search.
  destruct (generate_embedding img) as [emb|e].
  - pose proof (get_best_match_frame emb (6 # 10) w) as Fr.
    pose proof (get_best_match_some emb (6 # 10) w) as Sm.
    destruct (get_best_match emb (6 # 10) w) as [[[best|]|e] w'];
      cbn [fst snd] in *; subst w'.
    + do 2 eexists. split; [reflexivity|].
      split; [now left|]. split; [intros la lo [H|[H|[]]]; discriminate H|].
      split; [intros b [H|[H|[]]]; discriminate H|].
      intros resp [= <-]. cbn. repeat split.
      right. destruct (Sm best eq_refl) as (H1 & H2 & H3). repeat split; tauto.
    + do 2 eexists. split; [reflexivity|].
      split; [now left|]. split; [intros la lo [H|[H|[]]]; discriminate H|].
      split; [intros b [H|[H|[]]]; discriminate H|].
      intros resp [= <-]. cbn. repeat split. now left.
    + do 2 eexists. split; [reflexivity|].
      split; [now left|]. split; [intros la lo [H|[H|[]]]; discriminate H|].
      split; [intros b [H|[H|[]]]; discriminate H|].
      intros resp H; discriminate H.
  - do 2 eexists. split; [reflexivity|].
    split; [now left|]. split; [intros la lo [H|[]]; discriminate H|].
    split; [intros b [H|[]]; discriminate H|].
    intros resp H; discriminate H.
Qed.

Lemma resolve_gps_trace lat lon b :
  snd (resolve_gps extract_gps_from_bytes lat lon b) = [] \/
  snd (resolve_gps extract_gps_from_bytes lat lon b) = [CallExtractGps b].
Proof.
  unfold resolve_gps. destruct lat as [la|], lon as [lo|]; auto.
  destruct (float_truthy la && float_truthy lo); auto.
Qed.

(** The three ways a run of [recognize_landmark] goes: the image does not
    open; the geocoder names the place; the visual branch answers. *)
Lemma recognize_cases b lat lon w :
  let gps := fst (resolve_gps extract_gps_from_bytes lat lon b) in
  let tr0 := snd (resolve_gps extract_gps_from_bytes lat lon b) in
  ((exists e, Image_open b = Raise e) /\
   recognize b lat lon w = (Raise (HTTPException 500), w, [])) \/
  (exists la lo name,
     gps = Some (la, lo) /\ reverse_geocode la lo = Some name /\
     str_truthy name = true /\
     recognize b lat lon w =
       (Ok {| place_name := name; confidence := 95 # 100;
              source := "gps"; coordinates := Some [la; lo] |},
        w, tr0 ++ [CallReverseGeocode la lo])) \/
  (exists img r tr geo,
     visual img gps w = (r, w, tr) /\
     recognize b lat lon w = (r, w, tr0 ++ geo ++ tr) /\
     (gps = None /\ geo = [] \/
      exists la lo, gps = Some (la, lo) /\ geo = [CallReverseGeocode la lo])).
Proof.
  cbn zeta. unfold recognize, recognize_landmark.
  destruct (Image_open b) as [img|e]; [|left; split; [now exists e | reflexivity]].
  right.
  destruct (resolve_gps extract_gps_from_bytes lat lon b) as [gps tr0].
  cbn [fst snd].
  destruct (visual_search_run img gps w) as (r & tr & V & _).
  unfold visual in V.
  destruct gps as [[la lo]|].
  - destruct (reverse_geocode la lo) as [name|] eqn:G.
    + destruct (str_truthy name) eqn:T.
      * left. exists la, lo, name. repeat split; auto.
      * right. exists img, r, tr, [CallReverseGeocode la lo].
        rewrite V. split; [exact V|]. split; [reflexivity|].
        right. now exists la, lo.
    + right. exists img, r, tr, [CallReverseGeocode la lo].
      rewrite V. split; [exact V|]. split; [reflexivity|].
      right. now exists la, lo.
  - right. exists img, r, tr, []. rewrite V.
    split; [exact V|]. split; [reflexivity|]. now left.
Qed.

(** X14.  [recognize_landmark] is read-only and fails in one way: whatever
    the collaborators answer, the engine and the disk after the call are
    those before it, and every failure is an HTTP 500. *)
Theorem recognize_is_read_only b lat lon w :
  snd (fst (recognize b lat lon w)) = w /\
  forall e, fst (fst (recognize b lat lon w)) = Raise e ->
            e = HTTPException 500.
Proof.
  destruct (recognize_cases b lat lon w)
    as [(_ & E)|[(la & lo & name & _ & _ & _ & E)|
                 (img & r & tr & geo & V & E & _)]];
    rewrite E; cbn [fst snd]; split; auto; try discriminate.
  - now intros e [= <-].
  - intros e ->. unfold visual, visual_search in V.
    destruct (generate_embedding img); [|congruence].
    destruct (get_best_match _ _ w) as [[[?|]|?] ?]; congruence.
Qed.

(** X15.  The shape of every response.  It carries the coordinates resolved
    from the request; its confidence is in [0, 1]; and it is either a GPS
    answer (confidence 0.95, a non-empty name, coordinates present) or a
    visual answer, which is "Unknown" with confidence 0 or a place of the
    catalog with a confidence of at least 0.6. *)
Theorem recognize_response_shape b lat lon w resp :
  fst (fst (recognize b lat lon w)) = Ok resp ->
  coordinates resp =
    coords_of (fst (resolve_gps extract_gps_from_bytes lat lon b)) /\
  (0 <= confidence resp <= 1)%Q /\
  ((source resp = "gps"%string /\ confidence resp = (95 # 100)%Q /\
    str_truthy (place_name resp) = true /\ coordinates resp <> None) \/
   (source resp = "visual"%string /\
    ((place_name resp = "Unknown"%string /\ confidence resp = 0%Q) \/
     ((6 # 10 <= confidence resp)%Q /\
      has_place_name (metadata (self w)) (place_name resp) = true)))).
Proof.
  destruct (recognize_cases b lat lon w)
    as [(_ & E)|[(la & lo & name & G & _ & T & E)|
                 (img & r & tr & geo & V & E & _)]];
    rewrite E; cbn [fst snd]; [discriminate | |].
  - intros [= <-]. cbn. rewrite G. cbn. split; [reflexivity|].
    split; [split; discriminate|]. left. repeat split; auto. discriminate.
  - intros ->.
    destruct (visual_search_run img
                (fst (resolve_gps extract_gps_from_bytes lat lon b)) w)
      as (r' & tr' & V' & _ & _ & _ & S).
    rewrite V in V'. injection V' as <- <-.
    destruct (S resp eq_refl) as (Hs & Hc & [[Hp Hz]|[Hr Hin]]).
    + split; [exact Hc|]. rewrite Hz. split; [split; discriminate|].
      right. split; [exact Hs|]. now left.
    + split; [exact Hc|]. split; [lra|]. right. split; [exact Hs|].
      right. split; [lra | exact Hin].
Qed.

(** X16.  The visual model runs only when the GPS evidence gives no name:
    a response has source "gps" exactly when the embedder was not called. *)
Theorem gps_response_iff_embedder_not_called b lat lon w resp :
  fst (fst (recognize b lat lon w)) = Ok resp ->
  (source resp = "gps"%string <->
   ~ In CallGenerateEmbedding (snd (recognize b lat lon w))).
Proof.
  destruct (recognize_cases b lat lon w)
    as [(_ & E)|[(la & lo & name & G & _ & T & E)|
                 (img & r & tr & geo & V & E & _)]];
    rewrite E; cbn [fst snd]; [discriminate | |].
  - intros [= <-]. cbn. split; [|reflexivity]. intros _ Hin.
    apply in_app_or in Hin. destruct Hin as [Hin|[H|[]]]; [|discriminate H].
    destruct (resolve_gps_trace lat lon b) as [R|R]; rewrite R in Hin;
      [destruct Hin | destruct Hin as [H|[]]; discriminate H].
  - intros ->.
    destruct (visual_search_run img
                (fst (resolve_gps extract_gps_from_bytes lat lon b)) w)
      as (r' & tr' & V' & Hemb & _ & _ & S).
    rewrite V in V'. injection V' as <- <-.
    destruct (S resp eq_refl) as (Hs & _). rewrite Hs. split.
    + discriminate.
    + intros N. exfalso. apply N. apply in_or_app. right.
      apply in_or_app. now right.
Qed.

(** X17.  An explicit pair with both components non-zero is used as it is:
    the EXIF extraction is not called, the geocoder is asked about that pair
    and no other, and every response carries exactly that pair. *)
Theorem explicit_nonzero_pair_is_used b la lo w :
  float_truthy la = true -> float_truthy lo = true ->
  let run := recognize b (Some la) (Some lo) w in
  (forall b', ~ In (CallExtractGps b') (snd run)) /\
  (forall la' lo', In (CallReverseGeocode la' lo') (snd run) ->
                   la' = la /\ lo' = lo) /\
  (forall resp, fst (fst run) = Ok resp -> coordinates resp = Some [la; lo]).
Proof.
  intros Ta To. cbn zeta.
  pose proof (resolve_gps_explicit extract_gps_from_bytes la lo b Ta To) as R.
  pose proof (recognize_cases b (Some la) (Some lo) w) as C.
  cbn zeta in C. rewrite R in C. cbn [fst snd] in C.
  destruct C as [(_ & E)|[(la1 & lo1 & name & G & _ & T & E)|
                          (img & r & tr & geo & V & E & Hgeo)]];
    rewrite E; cbn [fst snd].
  - split; [intros b' []|]. split; [intros la' lo' []|]. discriminate.
  - injection G as <- <-. cbn [app]. split; [|split].
    + intros b' [H|[]]. discriminate H.
    + intros la' lo' [H|[]]. injection H as <- <-. now split.
    + now intros resp [= <-].
  - destruct (visual_search_run img (Some (la, lo)) w)
      as (r' & tr' & V' & _ & Ngeo & Nexif & S).
    rewrite V in V'. injection V' as <- <-.
    destruct Hgeo as [[H _]|(la1 & lo1 & [= <- <-] & ->)]; [discriminate H|].
    cbn [app]. split; [|split].
    + intros b' [H|H]; [discriminate H | now apply (Nexif b')].
    + intros la' lo' [H|H]; [injection H as <- <-; now split|].
      now apply Ngeo in H.
    + intros resp ->. now destruct (S resp eq_refl) as (_ & -> & _).
Qed.

(** X18.  Without coordinates there is no geocoding: when the request lacks
    a latitude or a longitude and the image carries no EXIF position, the
    geocoder is not called, and every response is a visual one without
    coordinates. *)
Theorem no_coordinates_no_geocoding b lat lon w :
  lat = None \/ lon = None ->
  extract_gps_from_bytes b = None ->
  let run := recognize b lat lon w in
  (forall la lo, ~ In (CallReverseGeocode la lo) (snd run)) /\
  (forall resp, fst (fst run) = Ok resp ->
     source resp = "visual"%string /\ coordinates resp = None).
Proof.
  intros M X. cbn zeta.
  pose proof (resolve_gps_missing extract_gps_from_bytes lat lon b M) as R.
  rewrite X in R.
  pose proof (recognize_cases b lat lon w) as C.
  cbn zeta in C. rewrite R in C. cbn [fst snd] in C.
  destruct C as [(_ & E)|[(la1 & lo1 & name & G & _ & T & E)|
                          (img & r & tr & geo & V & E & Hgeo)]];
    rewrite E; cbn [fst snd].
  - split; [intros la lo [] | discriminate].
  - discriminate G.
  - destruct (visual_search_run img None w)
      as (r' & tr' & V' & _ & Ngeo & _ & S).
    rewrite V in V'. injection V' as <- <-.
    destruct Hgeo as [[_ ->]|(la1 & lo1 & H & _)]; [|discriminate H].
    cbn. split.
    + intros la lo [H|H]; [discriminate H | now apply Ngeo in H].
    + intros resp ->. destruct (S resp eq_refl) as (Hs & Hc & _). now split.
Qed.

End PipelineFacts.

Lemma recognize_response_shape_witness :
  exists resp,
    fst (fst (recognize_landmark unit (fun _ => Ok tt) (fun _ => None)
                (fun _ _ => None) (fun _ => Ok (basis 1))
                [] None None world_two)) = Ok resp /\
    place_name resp = "Eiffel_Tower"%string /\
    (0 <= confidence resp <= 1)%Q.
Proof.
  eexists. split; [vm_compute; reflexivity|]. split; [reflexivity|].
  apply (recognize_response_shape unit (fun _ => Ok tt) (fun _ => None)
           (fun _ _ => None) (fun _ => Ok (basis 1)) [] None None world_two).
  vm_compute. reflexivity.
Defined.

Lemma gps_response_iff_embedder_not_called_witness :
  ~ In CallGenerateEmbedding
      (snd (recognize_landmark unit (fun _ => Ok tt) (fun _ => None)
              (fun _ _ => Some "Eiffel Tower"%string) (fun _ => Ok (basis 1))
              [] (Some (488584 # 10000)%Q) (Some (22945 # 10000)%Q)
              world_two)).
Proof.
  eapply (gps_response_iff_embedder_not_called unit (fun _ => Ok tt)
            (fun _ => None) (fun _ _ => Some "Eiffel Tower"%string)
            (fun _ => Ok (basis 1)));
    [vm_compute | cbn]; reflexivity.
Defined.

Lemma explicit_nonzero_pair_is_used_witness :
  exists resp,
    fst (fst (recognize_landmark unit (fun _ => Ok tt)
                (fun _ => Some (1 # 1, 1 # 1)%Q)
                (fun _ _ => None) (fun _ => Ok (basis 1))
                [] (Some (488584 # 10000)%Q) (Some (22945 # 10000)%Q)
                world_two)) = Ok resp /\
    coordinates resp = Some [488584 # 10000; 22945 # 10000]%Q.
Proof.
  eexists. split; [vm_compute; reflexivity|].
  apply (explicit_nonzero_pair_is_used unit (fun _ => Ok tt)
           (fun _ => Some (1 # 1, 1 # 1)%Q) (fun _ _ => None)
           (fun _ => Ok (basis 1)) [] (488584 # 10000)%Q (22945 # 10000)%Q
           world_two); reflexivity.
Defined.

Lemma no_coordinates_no_geocoding_witness :
  exists resp,
    fst (fst (recognize_landmark unit (fun _ => Ok tt) (fun _ => None)
                (fun _ _ => Some "Eiffel Tower"%string)
                (fun _ => Ok (basis 1))
                [] None (Some (22945 # 10000)%Q) world_two)) = Ok resp /\
    source resp = "visual"%string /\ coordinates resp = None.
Proof.
  eexists. split; [vm_compute; reflexivity|].
  apply (no_coordinates_no_geocoding unit (fun _ => Ok tt) (fun _ => None)
           (fun _ _ => Some "Eiffel Tower"%string) (fun _ => Ok (basis 1))
           [] None (Some (22945 # 10000)%Q) world_two);
    [now left | reflexivity | vm_compute; reflexivity].
Defined.

(** * Properties of the EXIF position *)

Lemma sixtieth (x : Q) : (x / 60 == x * (1 # 60))%Q.
Proof. field. Qed.

Lemma thirtysixhundredth (x : Q) : (x / 3600 == x * (1 # 3600))%Q.
Proof. field. Qed.

(** X19.  Minutes and seconds stay within their degree: for a tuple of
    degrees [d], minutes and (when present) seconds, none negative and
    minutes and seconds together less than one degree, [convert_to_degrees]
    returns a value in [d, d + 1); with two components only, the seconds
    count as 0. *)
Theorem convert_to_degrees_within_degree value :
  dms_wellformed value ->
  exists x,
    convert_to_degrees value = Some x /\
    (nth 0%nat value 0 <= x < nth 0%nat value 0 + 1)%Q /\
    (length value = 2 ->
     (x == nth 0%nat value 0 + nth 1%nat value 0 / 60)%Q).
Proof.
  destruct value as [|d [|m rest]];
    cbn [dms_wellformed convert_to_degrees nth length]; try contradiction.
  intros (Hd & Hm & Hs & Hms). eexists. split; [reflexivity|].
  pose proof (sixtieth m) as E60.
  destruct rest as [|s rest]; cbn [length].
  - pose proof (thirtysixhundredth 0) as E3600.
    split; [lra|]. intros _. lra.
  - pose proof (thirtysixhundredth s) as E3600.
    split; [lra|]. discriminate.
Qed.

Lemma convert_to_degrees_within_degree_witness :
  exists x,
    convert_to_degrees [48; 51; 30]%Q = Some x /\ (48 <= x < 49)%Q.
Proof.
  destruct (convert_to_degrees_within_degree [48; 51; 30]%Q)
    as (x & E & B & _).
  - cbn. repeat split; discriminate || reflexivity.
  - exists x. split; [exact E | exact B].
Defined.

Lemma convert_to_degrees_some value :
  (exists x, convert_to_degrees value = Some x) <-> 2 <= length value.
Proof.
  destruct value as [|d [|m rest]]; cbn; split;
    try (intros (x & H); discriminate H); try lia.
  intros _. now eexists.
Qed.

(** X20.  When a position is extracted.  [get_lat_lon_from_exif] returns a
    pair exactly when the GPS block is there, both references are non-empty
    strings and both coordinates are tuples of at least two numbers; a
    missing entry or a tuple that is too short gives [None], never an
    exception. *)
Theorem exif_position_iff_complete gps_data :
  (exists pos, get_lat_lon_from_exif gps_data = Some pos) <->
  exists lat lat_ref lon lon_ref,
    gps_data = Some {| GPSLatitude := Some lat;
                       GPSLatitudeRef := Some lat_ref;
                       GPSLongitude := Some lon;
                       GPSLongitudeRef := Some lon_ref |} /\
    2 <= length lat /\ 2 <= length lon /\
    lat_ref <> ""%string /\ lon_ref <> ""%string.
Proof.
  split.
  - intros (pos & H). destruct gps_data as [[lat lat_ref lon lon_ref]|];
      [|discriminate H].
    unfold get_lat_lon_from_exif in H.
    cbn [GPSLatitude GPSLatitudeRef GPSLongitude GPSLongitudeRef] in H.
    destruct (tuple_truthy lat && opt_str_truthy lat_ref &&
              tuple_truthy lon && opt_str_truthy lon_ref) eqn:T;
      [|discriminate H].
    apply andb_prop in T. destruct T as [T T4].
    apply andb_prop in T. destruct T as [T T3].
    apply andb_prop in T. destruct T as [T1 T2].
    destruct lat as [lat|]; [|discriminate T1].
    destruct lat_ref as [lat_ref|]; [|discriminate T2].
    destruct lon as [lon|]; [|discriminate T3].
    destruct lon_ref as [lon_ref|]; [|discriminate T4].
    destruct (convert_to_degrees lat) as [x|] eqn:C1; [|discriminate H].
    destruct (convert_to_degrees lon) as [y|] eqn:C2; [|discriminate H].
    exists lat, lat_ref, lon, lon_ref. split; [reflexivity|].
    split; [apply convert_to_degrees_some; now exists x|].
    split; [apply convert_to_degrees_some; now exists y|].
    unfold opt_str_truthy, str_truthy in T2, T4.
    split; apply String.eqb_neq; now apply negb_true_iff.
  - intros (lat & lat_ref & lon & lon_ref & -> & L1 & L2 & N1 & N2).
    destruct lat as [|d1 [|m1 r1]]; cbn in L1; try lia.
    destruct lon as [|d2 [|m2 r2]]; cbn in L2; try lia.
    cbn. unfold str_truthy.
    apply String.eqb_neq in N1, N2. rewrite N1, N2. cbn. now eexists.
Qed.

(** X21.  Hemispheres.  For well-formed coordinate tuples the latitude
    returned is the converted value with a minus sign exactly when the
    reference is the string "S", the longitude exactly when it is "W": a
    southern latitude is never positive, and any other reference (a
    lower-case "s" too) leaves the value non-negative. *)
Theorem exif_hemisphere_sign lat lat_ref lon lon_ref :
  dms_wellformed lat -> dms_wellformed lon ->
  lat_ref <> ""%string -> lon_ref <> ""%string ->
  exists x y,
    convert_to_degrees lat = Some x /\ convert_to_degrees lon = Some y /\
    (0 <= x /\ 0 <= y)%Q /\
    get_lat_lon_from_exif
      (Some {| GPSLatitude := Some lat; GPSLatitudeRef := Some lat_ref;
               GPSLongitude := Some lon; GPSLongitudeRef := Some lon_ref |}) =
    Some (if String.eqb lat_ref "S" then (- x)%Q else x,
          if String.eqb lon_ref "W" then (- y)%Q else y).
Proof.
  intros W1 W2 N1 N2.
  destruct (convert_to_degrees_within_degree lat W1) as (x & Ex & Bx & _).
  destruct (convert_to_degrees_within_degree lon W2) as (y & Ey & By & _).
  exists x, y. split; [exact Ex|]. split; [exact Ey|].
  assert (P : (0 <= nth 0%nat lat 0 /\ 0 <= nth 0%nat lon 0)%Q).
  { destruct lat as [|d1 [|m1 r1]], lon as [|d2 [|m2 r2]]; cbn in *;
      try contradiction. tauto. }
  split; [split; lra|].
  unfold get_lat_lon_from_exif. cbn [GPSLatitude GPSLatitudeRef GPSLongitude
                                     GPSLongitudeRef].
  assert (T1 : tuple_truthy (Some lat) = true)
    by (destruct lat; [contradiction | reflexivity]).
  assert (T2 : tuple_truthy (Some lon) = true)
    by (destruct lon; [contradiction | reflexivity]).
  rewrite T1, T2. unfold opt_str_truthy, str_truthy.
  apply String.eqb_neq in N1, N2. rewrite N1, N2. cbn [negb andb].
  now rewrite Ex, Ey.
Qed.

Lemma exif_hemisphere_sign_witness :
  exists x y,
    get_lat_lon_from_exif
      (Some {| GPSLatitude := Some [33; 51; 54]%Q;
               GPSLatitudeRef := Some "S"%string;
               GPSLongitude := Some [151; 12; 36]%Q;
               GPSLongitudeRef := Some "E"%string |}) = Some ((- x)%Q, y) /\
    (0 <= x /\ 0 <= y)%Q.
Proof.
  destruct (exif_hemisphere_sign [33; 51; 54]%Q "S" [151; 12; 36]%Q "E")
    as (x & y & _ & _ & P & E).
  - cbn. repeat split; discriminate || reflexivity.
  - cbn. repeat split; discriminate || reflexivity.
  - discriminate.
  - discriminate.
  - exists x, y. split; [exact E | exact P].
Defined.

(** * Properties of [normalize_name] *)

Module StringFacts.

Lemma upper_not_space c : is_space c = false -> is_space (upper c) = false.
Proof.
  destruct c as [[] [] [] [] [] [] [] []]; vm_compute; congruence.
Qed.

Lemma lower_not_space c : is_space c = false -> is_space (lower c) = false.
Proof.
  destruct c as [[] [] [] [] [] [] [] []]; vm_compute; congruence.
Qed.

Lemma upper_upper c : upper (upper c) = upper c.
Proof. destruct c as [[] [] [] [] [] [] [] []]; reflexivity. Qed.

Lemma lower_lower c : lower (lower c) = lower c.
Proof. destruct c as [[] [] [] [] [] [] [] []]; reflexivity. Qed.

Lemma upper_not_lower c : is_lower (upper c) = false.
Proof. destruct c as [[] [] [] [] [] [] [] []]; reflexivity. Qed.

Lemma no_space_app a b : no_space (a ++ b) = no_space a && no_space b.
Proof.
  induction a as [|c a IH]; cbn; [reflexivity|].
  rewrite IH. now rewrite andb_assoc.
Qed.

Lemma no_space_map_lower s : no_space s = true -> no_space (map_str lower s) = true.
Proof.
  induction s as [|c s IH]; cbn; [reflexivity|].
  intros H. apply andb_prop in H. destruct H as [Hc Hs].
  apply negb_true_iff in Hc. now rewrite lower_not_space, IH.
Qed.

Lemma no_space_capitalize w : no_space w = true -> no_space (capitalize w) = true.
Proof.
  destruct w as [|c w]; cbn; [reflexivity|].
  intros H. apply andb_prop in H. destruct H as [Hc Hs].
  apply negb_true_iff in Hc. now rewrite upper_not_space, no_space_map_lower.
Qed.

Lemma capitalize_nonempty w : w <> EmptyString -> capitalize w <> EmptyString.
Proof. destruct w; [congruence | discriminate]. Qed.

Lemma map_str_idem f s :
  (forall c, f (f c) = f c) -> map_str f (map_str f s) = map_str f s.
Proof.
  intros H. induction s as [|c s IH]; cbn; [reflexivity | now rewrite H, IH].
Qed.

Lemma capitalize_capitalize w : capitalize (capitalize w) = capitalize w.
Proof.
  destruct w as [|c w]; cbn; [reflexivity|].
  now rewrite upper_upper, (map_str_idem lower w lower_lower).
Qed.

Lemma split_words s : Forall word (split s).
Proof.
  induction s as [|c s IH]; cbn [split]; [constructor|].
  destruct (is_space c) eqn:C; [exact IH|].
  assert (W1 : word (String c EmptyString))
    by (split; [discriminate | cbn; now rewrite C]).
  destruct s as [|c' s']; [now constructor|].
  destruct (is_space c') eqn:C'; [now constructor|].
  destruct (split (String c' s')) as [|w ws]; [now constructor|].
  inversion IH as [|? ? [Hw Hn] Hws]; subst.
  constructor; [|exact Hws].
  split; [discriminate | cbn; now rewrite C, Hn].
Qed.

Lemma split_word w : word w -> split w = [w].
Proof.
  intros [Hne Hns]. induction w as [|c w IH]; [congruence|].
  cbn in Hns. apply andb_prop in Hns. destruct Hns as [Hc Hw].
  apply negb_true_iff in Hc. cbn [split]. rewrite Hc.
  destruct w as [|c' w']; [reflexivity|].
  assert (Hc' : is_space c' = false).
  { cbn in Hw. apply andb_prop in Hw. now apply negb_true_iff. }
  rewrite Hc', IH; [reflexivity | discriminate | exact Hw].
Qed.

Lemma split_lstrip s : split (lstrip s) = split s.
Proof.
  induction s as [|c s IH]; [reflexivity|].
  cbn [lstrip]. destruct (is_space c) eqn:C; [|reflexivity].
  rewrite IH. cbn [split]. now rewrite C.
Qed.

Lemma rstrip_head c s :
  rstrip (String c s) = EmptyString \/ exists r, rstrip (String c s) = String c r.
Proof.
  cbn [rstrip]. destruct (rstrip s); [|right; now eexists].
  destruct (is_space c); [now left | right; now eexists].
Qed.

Lemma split_cons_cons c c' x :
  split (String c (String c' x)) =
  if is_space c then split (String c' x)
  else if is_space c' then String c EmptyString :: split (String c' x)
  else match split (String c' x) with
       | w :: ws => String c w :: ws
       | [] => [String c EmptyString]
       end.
Proof. reflexivity. Qed.

Lemma split_rstrip s : split (rstrip s) = split s.
Proof.
  induction s as [|c s IH]; [reflexivity|].
  destruct s as [|c' s'].
  - cbn. destruct (is_space c) eqn:C; cbn; now rewrite ?C.
  - destruct (rstrip_head c' s') as [E|(r & E)].
    + cbn [rstrip] in *. rewrite E in *. rewrite split_cons_cons, <- IH.
      destruct (is_space c) eqn:C; cbn; rewrite ?C; [reflexivity|].
      now destruct (is_space c').
    + cbn [rstrip] in *. rewrite E in *.
      now rewrite !split_cons_cons, IH.
Qed.

Lemma split_strip s : split (strip s) = split s.
Proof. unfold strip. now rewrite split_rstrip, split_lstrip. Qed.

Lemma split_nil_iff s : split s = [] <-> all_space s = true.
Proof.
  induction s as [|c s IH]; cbn [split all_space]; [tauto|].
  destruct (is_space c); cbn [andb]; [exact IH|].
  split; [|discriminate].
  destruct s as [|c' s']; [discriminate|].
  destruct (is_space c'); [discriminate|].
  destruct (split (String c' s')); discriminate.
Qed.

Lemma concat_words ws :
  Forall word ws -> ws <> [] -> word (String.concat "_" ws).
Proof.
  induction 1 as [|w ws Hw Hws IH]; [congruence|]. intros _.
  destruct ws as [|w' ws']; [exact Hw|].
  change (String.concat "_" (w :: w' :: ws'))
    with (w ++ "_" ++ String.concat "_" (w' :: ws'))%string.
  destruct IH as [_ Hn]; [discriminate|]. destruct Hw as [Hne Hns]. split.
  - destruct w; [congruence | discriminate].
  - rewrite !no_space_app, Hns, Hn. reflexivity.
Qed.

Lemma map_capitalize_words ws : Forall word ws -> Forall word (map capitalize ws).
Proof.
  induction 1 as [|w ws [Hne Hns] _ IH]; cbn; constructor; auto.
  split; [now apply capitalize_nonempty | now apply no_space_capitalize].
Qed.

(** The result of [normalize_name] is a single word unless it is empty. *)
Lemma normalize_name_word name :
  normalize_name name = EmptyString \/ word (normalize_name name).
Proof.
  unfold normalize_name. destruct (String.eqb name ""); [right; now split|].
  destruct (split (strip name)) as [|w ws] eqn:S; [now left|].
  right. apply concat_words; [|discriminate].
  rewrite <- S. apply map_capitalize_words, split_words.
Qed.

Lemma normalize_name_of_word w :
  word w -> normalize_name w = capitalize w.
Proof.
  intros W. unfold normalize_name.
  destruct (String.eqb_spec w "") as [->|_]; [now destruct W|].
  now rewrite split_strip, (split_word w W).
Qed.

End StringFacts.

(** X22.  The normalized name is one token: it contains no whitespace, and
    it is empty exactly when the name is not empty but made of whitespace
    only (the empty name itself gives "Unknown"). *)
Theorem normalize_name_is_one_token name :
  ascii_only name ->
  no_space (normalize_name name) = true /\
  (normalize_name name = EmptyString <->
   name <> EmptyString /\ all_space name = true).
Proof.
  intros _. split.
  - destruct (StringFacts.normalize_name_word name) as [->|[_ H]];
      [reflexivity | exact H].
  - unfold normalize_name.
    destruct (String.eqb_spec name "") as [->|N].
    + split; [discriminate | intros [H _]; congruence].
    + rewrite StringFacts.split_strip, <- StringFacts.split_nil_iff.
      destruct (split name) as [|w ws] eqn:S.
      * split; [now split | reflexivity].
      * split; [|intros [_ H]; discriminate H].
        intros E. exfalso.
        destruct (StringFacts.concat_words (map capitalize (w :: ws)))
          as [Hne _]; [|discriminate|congruence].
        rewrite <- S. apply StringFacts.map_capitalize_words,
          StringFacts.split_words.
Qed.

Lemma normalize_name_is_one_token_witness :
  no_space (normalize_name "  taj   mahal ") = true /\
  normalize_name "   " = EmptyString.
Proof.
  split.
  - apply (normalize_name_is_one_token "  taj   mahal ").
    repeat constructor.
  - apply (normalize_name_is_one_token "   "); [repeat constructor|].
    split; [discriminate | reflexivity].
Defined.

(** X23.  Normalizing twice is not normalizing once.  A second
    [normalize_name] sees the first result as a single word and capitalizes
    it as a whole, which puts the letters after the first in lower case
    ("Taj_Mahal" becomes "Taj_mahal"); from the second application on the name
    is stable. *)
Theorem normalize_name_twice name :
  ascii_only name ->
  normalize_name name <> EmptyString ->
  normalize_name (normalize_name name) = capitalize (normalize_name name) /\
  normalize_name (normalize_name (normalize_name name)) =
    normalize_name (normalize_name name).
Proof.
  intros _ N.
  destruct (StringFacts.normalize_name_word name) as [E|W]; [congruence|].
  rewrite (StringFacts.normalize_name_of_word _ W). split; [reflexivity|].
  assert (W' : word (capitalize (normalize_name name))).
  { destruct W as [Hne Hns]. split;
      [now apply StringFacts.capitalize_nonempty
      | now apply StringFacts.no_space_capitalize]. }
  rewrite (StringFacts.normalize_name_of_word _ W').
  apply StringFacts.capitalize_capitalize.
Qed.

Lemma normalize_name_twice_witness :
  normalize_name "taj mahal" = "Taj_Mahal"%string /\
  normalize_name (normalize_name "taj mahal") = "Taj_mahal"%string.
Proof.
  split; [reflexivity|].
  destruct (normalize_name_twice "taj mahal") as [E _];
    [repeat constructor | discriminate |].
  rewrite E. reflexivity.
Defined.

Lemma concat_head w ws c r :
  w = String c r ->
  exists r', String.concat "_" (w :: ws) = String c r'.
Proof.
  intros ->. destruct ws as [|w' ws']; cbn; now eexists.
Qed.

(** X24.  A normalized name never starts with a lower-case letter; in
    particular [normalize_name] never returns the lower-case string
    "unknown". *)
Theorem normalize_name_initial_not_lower name :
  ascii_only name ->
  match normalize_name name with
  | String c _ => is_lower c = false
  | EmptyString => True
  end /\
  normalize_name name <> "unknown"%string.
Proof.
  intros _.
  assert (H : match normalize_name name with
              | String c _ => is_lower c = false
              | EmptyString => True
              end).
  { unfold normalize_name. destruct (String.eqb name ""); [reflexivity|].
    pose proof (StringFacts.split_words (strip name)) as F.
    destruct (split (strip name)) as [|w ws]; [exact I|].
    inversion F as [|? ? [Hne _] _]; subst.
    destruct w as [|c r]; [congruence|]. cbn [map capitalize].
    destruct (concat_head (String (upper c) (map_str lower r))
                (map capitalize ws) _ _ eq_refl) as (r' & ->).
    apply StringFacts.upper_not_lower. }
  split; [exact H|]. intros E. rewrite E in H. discriminate H.
Qed.

Lemma normalize_name_initial_not_lower_witness :
  normalize_name "unknown" = "Unknown"%string /\
  normalize_name "unknown" <> "unknown"%string.
Proof.
  split; [reflexivity|].
  apply (normalize_name_initial_not_lower "unknown"). repeat constructor.
Defined.
